(** * A static hash index with overflow chaining (Trabalho1_AnaMaria/Hash.py)

    Shallow embedding of the core of [Hash.py]: the page model, the bucket
    chain ([BucketNode]), the hash index ([HashIndex]) and the table scan,
    followed by the properties of the specification proved about them.

    Conventions of the embedding.
    - A Python [int] is a [Z]; [len l] is [Z.of_nat (length l)].
    - A Python [str] is the sequence of its code points ([str := list N]),
      and [ord] reads a code point as an integer.
    - A call may return, raise, or run forever.  The [while True] loop of
      [BucketNode.insert] is run with a fuel counter, one unit per
      iteration; [OutOfFuel] is returned when the counter is exhausted.
    - Objects mutated in place ([node.items.append], [node.next = ...],
      the counters of the index) are passed and returned explicitly.  The
      bucket list holds one fresh node per slot and chains never share a
      node, so a chain is a value: a node together with its successor.
    - [nr / self.fr] is a float in Python and [math.ceil] rounds it up.
      The embedding computes that float, as the correctly rounded
      quotient of the two integers with 53 significant bits and a least
      exponent of -1074, and takes its ceiling.  Only the largest
      exponent is left out: a quotient of 2^1024 or more makes Python
      raise OverflowError, which takes more records than a Python list
      can hold (fewer than 2^63 per list).  The two rates are floats in
      Python and exact rationals here. *)

From Stdlib Require Import ZArith QArith Qround Lia.
From stdpp Require Import base option list numbers strings.

Local Open Scope Z_scope.

(** ** Results of a call *)

Inductive exn : Set :=
  | ZeroDivisionError
  | IndexError.

Inductive result (A : Type) : Type :=
  | Ok (a : A)
  | Raise (e : exn)
  | OutOfFuel.

Arguments Ok {A} a.
Arguments Raise {A} e.
Arguments OutOfFuel {A}.

Definition result_bind {A B : Type} (f : A → result B) (m : result A) : result B :=
  match m with
  | Ok a => f a
  | Raise e => Raise e
  | OutOfFuel => OutOfFuel
  end.

#[global] Instance result_mret : MRet result := @Ok.
#[global] Instance result_mbind : MBind result := @result_bind.

(** [len(l)] *)
Definition len {A : Type} (l : list A) : Z := Z.of_nat (length l).

(** ** Strings *)

Definition char : Set := N.
Definition str : Set := list char.

Definition ord (ch : char) : Z := Z.of_N ch.

(** The code points of a string literal, for writing keys down. *)
Fixpoint py_str (s : string) : str :=
  match s with
  | EmptyString => []
  | String a rest => Ascii.N_of_ascii a :: py_str rest
  end.

(** ** Modelos de dados *)

Record Page : Set := mkPage {
  page_id : Z;
  records : list str
}.

Definition entry : Set := (str * Z)%type.

#[local] Set Warnings "-register-all".

Inductive BucketNode : Set := mkBucketNode {
  capacity : Z;
  items : list entry;
  next : option BucketNode
}.

(** [BucketNode(capacity)] *)
Definition BucketNode_init (cap : Z) : BucketNode :=
  {| capacity := cap; items := []; next := None |}.

(** The loop of [BucketNode.insert].  [self_capacity] is [self.capacity];
    [is_self] says whether [node is self]. *)
Fixpoint insert_loop (fuel : nat) (self_capacity : Z) (is_self : bool)
    (node : BucketNode) (key : str) (pid : Z) : result (BucketNode * bool) :=
  match fuel with
  | O => OutOfFuel
  | S fuel' =>
      if len (items node) <? capacity node then
        Ok ({| capacity := capacity node;
               items := items node ++ [(key, pid)];
               next := next node |}, negb is_self)
      else
        let nxt :=
          match next node with
          | None => BucketNode_init self_capacity
          | Some n => n
          end in
        '(nxt', went) ← insert_loop fuel' self_capacity false nxt key pid;
        Ok ({| capacity := capacity node;
               items := items node;
               next := Some nxt' |}, went)
  end.

Definition insert (fuel : nat) (self : BucketNode) (key : str) (pid : Z)
    : result (BucketNode * bool) :=
  insert_loop fuel (capacity self) true self key pid.

(** [for k, pid in node.items: if k == key: return pid] *)
Fixpoint find_items (its : list entry) (key : str) : option Z :=
  match its with
  | [] => None
  | (k, pid) :: rest => if decide (k = key) then Some pid else find_items rest key
  end.

Fixpoint find (node : BucketNode) (key : str) : option Z :=
  match node with
  | mkBucketNode _ its nx =>
      match find_items its key with
      | Some pid => Some pid
      | None =>
          match nx with
          | None => None
          | Some n => find n key
          end
      end
  end.

Record HashIndex : Set := mkHashIndex {
  fr : Z;
  nb : Z;
  buckets : list BucketNode;
  inserts : Z;
  collision_inserts : Z;
  overflow_inserts : Z
}.

(** [HashIndex(fr)] *)
Definition HashIndex_init (fr0 : Z) : result HashIndex :=
  Ok {| fr := fr0; nb := 0; buckets := [];
        inserts := 0; collision_inserts := 0; overflow_inserts := 0 |}.

(** [h = (h * 31 + ord(ch)) & 0xFFFFFFFF] over the characters of the key. *)
Definition hash_acc (key : str) : Z :=
  fold_left (λ h ch, Z.land (h * 31 + ord ch) 0xFFFFFFFF) key 0.

(** Python's [%] on integers: the sign of the divisor, as [Z.modulo];
    a zero divisor raises. *)
Definition py_mod (a b : Z) : result Z :=
  if b =? 0 then Raise ZeroDivisionError else Ok (a mod b).

Definition hash_fn (key : str) (nb0 : Z) : result Z :=
  py_mod (hash_acc key) nb0.

(** *** [a / b] on integers: a float *)

(** Python's [a / b] on two integers is the binary64 float nearest to the
    exact quotient, ties going to the even mantissa, subnormal results
    included.  A positive float is kept as a pair [(m, e)] that stands
    for [m * 2^e], with [m] below 2^53 before rounding and [e >= -1074]. *)

(** [x * 2^s] for [s >= 0], and [x] for [s < 0]. *)
Definition shl (x s : Z) : Z := x * 2 ^ Z.max 0 s.

(** The integer nearest to [num / den], the even one at a tie. *)
Definition round_half_even (num den : Z) : Z :=
  let q := num / den in
  let r := num mod den in
  if 2 * r <? den then q
  else if den <? 2 * r then q + 1
  else if Z.even q then q else q + 1.

(** The integer part of the binary logarithm of [a / b], for positive
    [a] and [b]. *)
Definition quot_log2 (a b : Z) : Z :=
  let d := Z.log2 a - Z.log2 b in
  if shl a (- d) <? shl b d then d - 1 else d.

(** The float [a / b] for positive [a] and [b]: 53 significant bits,
    fewer once the exponent has reached its minimum of -1074. *)
Definition float_quot (a b : Z) : Z * Z :=
  let e := Z.max (quot_log2 a b - 52) (-1074) in
  (round_half_even (shl a (- e)) (shl b e), e).

(** [math.ceil] and [math.floor] of a float [(m, e)]. *)
Definition float_ceil (f : Z * Z) : Z :=
  if 0 <=? f.2 then f.1 * 2 ^ f.2 else - ((- f.1) / 2 ^ (- f.2)).

Definition float_floor (f : Z * Z) : Z :=
  if 0 <=? f.2 then f.1 * 2 ^ f.2 else f.1 / 2 ^ (- f.2).

(** [math.ceil(a / b)] on integers: the ceiling of the float quotient.
    A negative quotient is the opposite of a positive one, and its
    ceiling the opposite of a floor; [0 / b] is [0.0] or [-0.0], whose
    ceiling is 0. *)
Definition py_ceil_div (a b : Z) : result Z :=
  if b =? 0 then Raise ZeroDivisionError
  else if a =? 0 then Ok 0
  else
    let f := float_quot (Z.abs a) (Z.abs b) in
    if Bool.eqb (0 <? a) (0 <? b) then Ok (float_ceil f)
    else Ok (- float_floor f).

(** [l[i]]: the position that a Python index denotes in a list of length
    [n], negative indices counting from the end. *)
Definition py_index (n : nat) (i : Z) : result nat :=
  if (0 <=? i) && (i <? Z.of_nat n) then Ok (Z.to_nat i)
  else if (- Z.of_nat n <=? i) && (i <? 0) then Ok (Z.to_nat (Z.of_nat n + i))
  else Raise IndexError.

Definition py_getitem {A : Type} (l : list A) (i : Z) : result (nat * A) :=
  pos ← py_index (length l) i;
  match l !! pos with
  | Some x => Ok (pos, x)
  | None => Raise IndexError
  end.

(** [sum(len(p.records) for p in pages)] *)
Definition total_records (pages : list Page) : Z :=
  fold_left (λ acc p, acc + len (records p)) pages 0.

(** [range(n)] *)
Definition py_range (n : Z) : list Z :=
  map Z.of_nat (seq 0 (Z.to_nat n)).

(** The body of the inner loop of [build], for one record of a page. *)
Definition build_record (fuel : nat) (pid : Z) (self : HashIndex) (key : str)
    : result HashIndex :=
  b ← hash_fn key (nb self);
  '(pos, primary) ← py_getitem (buckets self) b;
  let collisions :=
    if 0 <? len (items primary)
    then collision_inserts self + 1 else collision_inserts self in
  '(primary', went_overflow) ← insert fuel primary key pid;
  let overflows :=
    if went_overflow : bool then overflow_inserts self + 1 else overflow_inserts self in
  Ok {| fr := fr self; nb := nb self;
        buckets := <[pos := primary']> (buckets self);
        inserts := inserts self + 1;
        collision_inserts := collisions;
        overflow_inserts := overflows |}.

(** A [for] loop whose body may raise. *)
Fixpoint for_each {S A : Type} (body : S → A → result S) (xs : list A) (s : S)
    : result S :=
  match xs with
  | [] => Ok s
  | x :: rest => s' ← body s x; for_each body rest s'
  end.

Definition build_page (fuel : nat) (self : HashIndex) (page : Page) : result HashIndex :=
  for_each (build_record fuel (page_id page)) (records page) self.

(** The first part of [build], up to the reset of the counters. *)
Definition build_init (self : HashIndex) (pages : list Page) : result HashIndex :=
  let nr := total_records pages in
  c ← py_ceil_div nr (fr self);
  let nb0 := c + 1 in
  Ok {| fr := fr self; nb := nb0;
        buckets := map (λ _, BucketNode_init (fr self)) (py_range nb0);
        inserts := 0; collision_inserts := 0; overflow_inserts := 0 |}.

Definition build (fuel : nat) (self : HashIndex) (pages : list Page) : result HashIndex :=
  self1 ← build_init self pages;
  for_each (build_page fuel) pages self1.

Definition find_page (self : HashIndex) (key : str) : result (option Z) :=
  match buckets self with
  | [] => Ok None
  | _ =>
      b ← hash_fn key (nb self);
      '(_, bucket) ← py_getitem (buckets self) b;
      Ok (find bucket key)
  end.

Definition collision_rate (self : HashIndex) : Q :=
  if inserts self =? 0 then 0%Q
  else (inject_Z (collision_inserts self) / inject_Z (inserts self) * 100)%Q.

Definition overflow_rate (self : HashIndex) : Q :=
  if inserts self =? 0 then 0%Q
  else (inject_Z (overflow_inserts self) / inject_Z (inserts self) * 100)%Q.

(** ** Funções utilitárias *)

Fixpoint table_scan_loop (pages : list Page) (key : str) (cost : Z) : option Z * Z :=
  match pages with
  | [] => (None, cost)
  | p :: rest =>
      let cost := cost + 1 in
      if decide (key ∈ records p) then (Some (page_id p), cost)
      else table_scan_loop rest key cost
  end.

Definition table_scan (pages : list Page) (key : str) : option Z * Z :=
  table_scan_loop pages key 0.

(** ** Notions used to state the properties *)

(** The nodes of a chain in order, the head first, each as its capacity
    and its items.  Node [i] has an overflow link exactly when node
    [i + 1] exists. *)
Fixpoint chain_nodes (node : BucketNode) : list (Z * list entry) :=
  match node with
  | mkBucketNode c its nx =>
      (c, its) :: match nx with
                  | None => []
                  | Some n => chain_nodes n
                  end
  end.

(** All the entries of a chain, in the order [find] scans them. *)
Definition chain_items (node : BucketNode) : list entry :=
  concat (map snd (chain_nodes node)).

(** A sequence of [insert] calls on one bucket head. *)
Definition insert_seq (fuel : nat) (self : BucketNode) (es : list entry)
    : result BucketNode :=
  for_each (λ s e, '(s', _) ← insert fuel s e.1 e.2; Ok s') es self.

(** The entries [build] inserts, in the order it inserts them. *)
Definition page_entries (p : Page) : list entry :=
  map (λ key, (key, page_id p)) (records p).

Definition entries (pages : list Page) : list entry :=
  concat (map page_entries pages).

(** The walk of [insert] seen on the node list: the entry goes to the
    first node with room, and to a new node of capacity [cap0] after the
    last one when there is none. *)
Fixpoint place (cap0 : Z) (ns : list (Z * list entry)) (e : entry)
    : list (Z * list entry) :=
  match ns with
  | [] => [(cap0, [e])]
  | (c, its) :: rest =>
      if len its <? c then (c, its ++ [e]) :: rest
      else (c, its) :: place cap0 rest e
  end.

(** Every node has capacity [cap]; every node but the last holds exactly
    [cap] entries, and the last one at most [cap]. *)
Fixpoint full_but_last (cap : Z) (ns : list (Z * list entry)) : Prop :=
  match ns with
  | [] => True
  | (c, its) :: rest =>
      c = cap
      ∧ match rest with
        | [] => len its ≤ cap
        | _ :: _ => len its = cap
        end
      ∧ full_but_last cap rest
  end.

(** One iteration of [build], on the entry it inserts. *)
Definition build_entry (fuel : nat) (self : HashIndex) (e : entry) : result HashIndex :=
  build_record fuel e.2 self e.1.

(** The state of [build] after it has processed the entries [done], for
    a bucket-fill capacity [FR] and a bucket count [NB]. *)
Record build_inv (FR NB : Z) (done : list entry) (s : HashIndex) : Prop := {
  inv_fr : fr s = FR;
  inv_nb : nb s = NB;
  inv_buckets : length (buckets s) = Z.to_nat NB;
  inv_inserts : inserts s = len done;
  inv_counters :
    0 ≤ overflow_inserts s ∧ overflow_inserts s ≤ collision_inserts s
    ∧ collision_inserts s ≤ inserts s;
  inv_chain : ∀ b node, buckets s !! b = Some node →
    full_but_last FR (chain_nodes node)
    ∧ (length (chain_nodes node) ≤ S (length done))%nat;
  inv_find : ∀ b node key, buckets s !! b = Some node →
    hash_acc key mod NB = Z.of_nat b →
    find node key = find_items done key
}.

(** The hash accumulator as the specification words it: arithmetic
    modulo 2^32. *)
Definition spec_hash_acc (key : str) : Z :=
  fold_left (λ h ch, (h * 31 + ord ch) mod 2 ^ 32) key 0.

(** ** Loading and paging *)

(** [str.isspace] on one character: the 29 code points Python treats as
    whitespace. *)
Definition py_isspace (c : char) : bool :=
  ((0x09 <=? c) && (c <=? 0x0D) || (0x1C <=? c) && (c <=? 0x20)
   || (c =? 0x85) || (c =? 0xA0) || (c =? 0x1680)
   || (0x2000 <=? c) && (c <=? 0x200A)
   || (c =? 0x2028) || (c =? 0x2029) || (c =? 0x202F)
   || (c =? 0x205F) || (c =? 0x3000))%N.

(** [s.lstrip()] *)
Fixpoint lstrip (s : str) : str :=
  match s with
  | [] => []
  | c :: rest => if py_isspace c then lstrip rest else s
  end.

(** [s.strip()]: whitespace removed at both ends. *)
Definition strip (s : str) : str := rev (lstrip (rev (lstrip s))).

(** The loop of [load_words_txt], on the lines that iterating the opened
    file yields. *)
Definition load_words_txt (lines : list str) : list str :=
  fold_left
    (λ words line,
       let w := strip line in
       match w with
       | [] => words
       | _ :: _ => words ++ [w]
       end)
    lines [].

(** [range(start, stop, step)]; [None] stands for the [ValueError] that
    a zero step raises. *)
Definition py_range3 (start stop step : Z) : option (list Z) :=
  if step =? 0 then None
  else
    let n :=
      if 0 <? step then (stop - start + step - 1) / step
      else (start - stop - step - 1) / (- step) in
    Some (map (λ k : nat, start + Z.of_nat k * step) (seq 0 (Z.to_nat n))).

(** A bound of a slice, as Python clips it to the list. *)
Definition py_slice_bound (n i : Z) : Z :=
  if i <? 0 then Z.max 0 (i + n) else Z.min i n.

(** [l[i:j]] *)
Definition py_slice {A : Type} (l : list A) (i j : Z) : list A :=
  let lo := py_slice_bound (len l) i in
  let hi := py_slice_bound (len l) j in
  take (Z.to_nat (hi - lo)) (drop (Z.to_nat lo) l).

(** [make_pages]; the state of its loop is the list of pages and the
    next page id. *)
Definition make_pages (words : list str) (page_size : Z) : option (list Page) :=
  starts ← py_range3 0 (len words) page_size;
  Some (fold_left
          (λ (st : list Page * Z) (i : Z),
             let chunk := py_slice words i (i + page_size) in
             (st.1 ++ [mkPage st.2 chunk], st.2 + 1))
          starts ([], 0)).1.

(** ** Further notions used to state properties *)

(** The entries of a chain that are not in its head. *)
Definition overflow_entries (node : BucketNode) : nat :=
  length (chain_items node) - length (items node).

(** 1 for a bucket whose head holds an entry, 0 otherwise. *)
Definition in_use (node : BucketNode) : nat :=
  match items node with
  | [] => 0
  | _ :: _ => 1
  end.

(** What [build] keeps besides [build_inv]: where the entries are and
    what the counters count. *)
Record build_content (NB : Z) (done : list entry) (s : HashIndex) : Prop := {
  content_placed : ∀ b node k pid, buckets s !! b = Some node →
    (k, pid) ∈ chain_items node → hash_acc k mod NB = Z.of_nat b;
  content_perm : concat (map chain_items (buckets s)) ≡ₚ done;
  content_ordered : ∀ b node, buckets s !! b = Some node →
    chain_items node = filter (λ e, hash_acc e.1 mod NB = Z.of_nat b) done;
  content_heads : ∀ b node, buckets s !! b = Some node →
    items node = [] → chain_items node = [];
  content_collisions :
    inserts s - collision_inserts s =
      Z.of_nat (sum_list_with in_use (buckets s));
  content_overflows :
    overflow_inserts s = Z.of_nat (sum_list_with overflow_entries (buckets s))
}.

(** * Properties *)

(** ** The result monad *)

Lemma bind_Ok {A B : Type} (m : result A) (f : A → result B) (b : B) :
  m ≫= f = Ok b → ∃ a, m = Ok a ∧ f a = Ok b.
Proof. destruct m as [a| |]; simpl; intros H; try discriminate. by exists a. Qed.

Tactic Notation "inv_bind" hyp(H) "as" simple_intropattern(a) ident(Ha) :=
  apply bind_Ok in H; destruct H as (a & Ha & H).

(** A loop invariant for [for_each]: it may mention the elements already
    processed. *)
Lemma for_each_invariant {S A : Type} (I : list A → S → Prop)
    (body : S → A → result S) (xs : list A) (s0 : S) :
  I [] s0 →
  (∀ done x rest s, xs = done ++ x :: rest → I done s →
     ∃ s', body s x = Ok s' ∧ I (done ++ [x]) s') →
  ∃ s', for_each body xs s0 = Ok s' ∧ I xs s'.
Proof.
  intros H0 Hstep.
  enough (∀ rest done s, xs = done ++ rest → I done s →
            ∃ s', for_each body rest s = Ok s' ∧ I xs s') as Hgen
    by (apply (Hgen xs [] s0); done).
  induction rest as [|x rest IH]; intros done s Hxs HI.
  - rewrite app_nil_r in Hxs. subst. by exists s.
  - destruct (Hstep done x rest s Hxs HI) as (s1 & Hb & HI1).
    cbn [for_each]. rewrite Hb. cbn.
    apply (IH (done ++ [x]) s1); [|done].
    by rewrite <- app_assoc.
Qed.

(** The same for a loop that is only known to have completed. *)
Lemma for_each_preserves {S A : Type} (I : S → Prop)
    (body : S → A → result S) (xs : list A) (s0 s' : S) :
  I s0 →
  (∀ s x s1, I s → body s x = Ok s1 → I s1) →
  for_each body xs s0 = Ok s' → I s'.
Proof.
  intros H0 Hstep. revert s0 H0.
  induction xs as [|x xs IH]; intros s0 H0 Hrun; cbn in Hrun.
  - by injection Hrun as <-.
  - inv_bind Hrun as s1 Hbody. eauto.
Qed.

Lemma for_each_app {S A : Type} (body : S → A → result S) (xs ys : list A) (s : S) :
  for_each body (xs ++ ys) s = for_each body xs s ≫= for_each body ys.
Proof.
  revert s. induction xs as [|x xs IH]; intros s; cbn; [done|].
  destruct (body s x) as [s1| |]; cbn; [apply IH|done|done].
Qed.

(** ** Hash function *)

Section HashFn.

Lemma mask32_mod (x : Z) : Z.land x 0xFFFFFFFF = x mod 2 ^ 32.
Proof. change 0xFFFFFFFF with (Z.ones 32). by apply Z.land_ones. Qed.

Lemma hash_acc_spec (key : str) : hash_acc key = spec_hash_acc key.
Proof.
  unfold hash_acc, spec_hash_acc. generalize 0.
  induction key as [|ch key IH]; intros h; cbn; [done|].
  by rewrite mask32_mod, IH.
Qed.

Lemma spec_hash_acc_range (key : str) : 0 ≤ spec_hash_acc key < 2 ^ 32.
Proof.
  unfold spec_hash_acc.
  enough (∀ h, 0 ≤ h < 2 ^ 32 →
            0 ≤ fold_left (λ h ch, (h * 31 + ord ch) mod 2 ^ 32) key h < 2 ^ 32)
    as Hgen by (apply Hgen; lia).
  induction key as [|ch key IH]; intros h Hh; cbn; [done|].
  apply IH. by apply Z.mod_pos_bound.
Qed.

Lemma hash_fn_Ok (key : str) (n : Z) :
  0 < n → ∃ b, hash_fn key n = Ok b ∧ 0 ≤ b < n.
Proof.
  intros Hn. unfold hash_fn, py_mod.
  destruct (Z.eqb_spec n 0) as [->|_]; [lia|].
  eexists; split; [done|]. by apply Z.mod_pos_bound.
Qed.

(** C4.  For every key and every positive bucket count, [hash_fn]
    returns the accumulator of the specification (start at 0, then
    [h = (h * 31 + code_of(c)) mod 2^32] for each character in order)
    reduced modulo the bucket count; the accumulator stays below 2^32
    (it wraps, no error is raised), the result lies in
    [0, bucket_count), and two calls on the same inputs agree. *)
Theorem hash_fn_spec (key : str) (bucket_count : Z) :
  0 < bucket_count →
  hash_fn key bucket_count = Ok (spec_hash_acc key mod bucket_count)
  ∧ 0 ≤ spec_hash_acc key < 2 ^ 32
  ∧ 0 ≤ spec_hash_acc key mod bucket_count < bucket_count
  ∧ (∀ r1 r2, hash_fn key bucket_count = Ok r1 →
              hash_fn key bucket_count = Ok r2 → r1 = r2).
Proof.
  intros Hpos. unfold hash_fn, py_mod.
  destruct (Z.eqb_spec bucket_count 0) as [->|_]; [lia|].
  rewrite hash_acc_spec. repeat split.
  - apply spec_hash_acc_range.
  - apply spec_hash_acc_range.
  - by apply Z.mod_pos_bound.
  - by apply Z.mod_pos_bound.
  - congruence.
Qed.

(** A key whose accumulator exceeds 32 bits on the way: "zzzzzzz" has
    122 * (31^7 - 1) / 30 = 111884630714, which wraps to 215481018. *)
Lemma hash_fn_spec_witness :
  hash_fn (py_str "zzzzzzz") 5 = Ok (spec_hash_acc (py_str "zzzzzzz") mod 5)
  ∧ 0 ≤ spec_hash_acc (py_str "zzzzzzz") < 2 ^ 32
  ∧ 0 ≤ spec_hash_acc (py_str "zzzzzzz") mod 5 < 5
  ∧ (∀ r1 r2, hash_fn (py_str "zzzzzzz") 5 = Ok r1 →
              hash_fn (py_str "zzzzzzz") 5 = Ok r2 → r1 = r2).
Proof. apply (hash_fn_spec (py_str "zzzzzzz") 5). lia. Defined.

Example hash_fn_wraps :
  hash_acc (py_str "zzzzzzz") = 111884630714 mod 2 ^ 32
  ∧ hash_fn (py_str "zzzzzzz") 5 = Ok 3.
Proof. split; vm_compute; reflexivity. Qed.

End HashFn.

(** ** Table scan *)

Section TableScan.

Lemma table_scan_loop_found (key : str) (pages : list Page) :
  ∀ (cost : Z) (i : nat) (p : Page),
    pages !! i = Some p → key ∈ records p →
    (∀ j q, (j < i)%nat → pages !! j = Some q → key ∉ records q) →
    table_scan_loop pages key cost = (Some (page_id p), cost + Z.of_nat i + 1).
Proof.
  induction pages as [|p0 pages IH]; intros cost i p Hi Hin Hbefore; [done|].
  cbn [table_scan_loop]. destruct i as [|i].
  - injection Hi as ->. rewrite decide_True by done. f_equal. lia.
  - rewrite decide_False by (apply (Hbefore 0%nat p0); [lia|done]).
    rewrite (IH (cost + 1) i p); [f_equal; lia|done|done|].
    intros j q Hj Hq. apply (Hbefore (S j) q); [lia|done].
Qed.

Lemma table_scan_loop_absent (key : str) (pages : list Page) :
  ∀ cost : Z,
    (∀ p, p ∈ pages → key ∉ records p) →
    table_scan_loop pages key cost = (None, cost + len pages).
Proof.
  unfold len.
  induction pages as [|p0 pages IH]; intros cost Habs; cbn [table_scan_loop].
  - f_equal. cbn. lia.
  - rewrite decide_False by (apply Habs; left).
    rewrite IH by (intros p Hp; apply Habs; by right).
    f_equal. cbn [length]. lia.
Qed.

(** C7.  [table_scan] returns the id of the first page, in store order,
    whose records contain the key, with a cost equal to the 1-based
    position of that page; when no page contains the key it returns
    not-found with a cost equal to the number of pages. *)
Theorem table_scan_spec (pages : list Page) (key : str) :
  (∀ (i : nat) (p : Page),
     pages !! i = Some p → key ∈ records p →
     (∀ j q, (j < i)%nat → pages !! j = Some q → key ∉ records q) →
     table_scan pages key = (Some (page_id p), Z.of_nat i + 1))
  ∧ ((∀ p, p ∈ pages → key ∉ records p) →
     table_scan pages key = (None, len pages)).
Proof.
  split.
  - intros i p Hi Hin Hbefore. unfold table_scan.
    by rewrite (table_scan_loop_found key pages 0 i p).
  - intros Habs. unfold table_scan.
    by rewrite table_scan_loop_absent.
Qed.

Example table_scan_last_page :
  let pages := [mkPage 0 [py_str "apple"; py_str "banana"];
                mkPage 1 [py_str "cherry"; py_str "date"];
                mkPage 2 [py_str "egg"]] in
  table_scan pages (py_str "egg") = (Some 2, 3)
  ∧ table_scan pages (py_str "date") = (Some 1, 2)
  ∧ table_scan pages (py_str "fig") = (None, 3).
Proof. repeat split; vm_compute; reflexivity. Qed.

End TableScan.

(** ** Bucket chains *)

Section Chain.

(** Induction along a chain, from its last node back to the head. *)
Fixpoint BucketNode_chain_ind (P : BucketNode → Prop)
    (Hlast : ∀ c its, P (mkBucketNode c its None))
    (Hlink : ∀ c its n, P n → P (mkBucketNode c its (Some n)))
    (node : BucketNode) : P node :=
  match node with
  | mkBucketNode c its None => Hlast c its
  | mkBucketNode c its (Some n) =>
      Hlink c its n (BucketNode_chain_ind P Hlast Hlink n)
  end.

Lemma chain_nodes_unfold (node : BucketNode) :
  chain_nodes node =
    (capacity node, items node) ::
      match next node with None => [] | Some n => chain_nodes n end.
Proof. by destruct node. Qed.

Lemma chain_nodes_length_pos (node : BucketNode) :
  (0 < length (chain_nodes node))%nat.
Proof. rewrite chain_nodes_unfold. cbn. lia. Qed.

(** *** The loop of [insert] *)

Lemma insert_loop_Ok (node : BucketNode) :
  ∀ (fuel : nat) (cap0 : Z) (is_self : bool) (key : str) (pid : Z),
    0 < cap0 →
    (length (chain_nodes node) < fuel)%nat →
    ∃ node',
      insert_loop fuel cap0 is_self node key pid =
        Ok (node', if len (items node) <? capacity node then negb is_self else true)
      ∧ chain_nodes node' = place cap0 (chain_nodes node) (key, pid)
      ∧ capacity node' = capacity node.
Proof.
  induction node as [c its|c its n IH] using BucketNode_chain_ind;
    intros fuel cap0 is_self key pid Hcap Hfuel;
    cbn [chain_nodes length] in Hfuel;
    (destruct fuel as [|fuel]; [lia|]);
    cbn [insert_loop capacity items next chain_nodes place];
    destruct (len its <? c) eqn:Hroom.
  - eexists; repeat split; done.
  - destruct fuel as [|fuel]; [lia|].
    cbn. unfold len at 1. cbn [length].
    destruct (Z.ltb_spec (Z.of_nat 0) cap0) as [_|?]; [|lia].
    cbn. eexists; repeat split; done.
  - eexists; repeat split; done.
  - destruct (IH fuel cap0 false key pid Hcap) as (n' & Hrun & Hnodes & _); [lia|].
    rewrite Hrun. cbn.
    exists (mkBucketNode c its (Some n')).
    split; [by destruct (len (items n) <? capacity n)|].
    split; [|done]. cbn [chain_nodes]. by rewrite Hnodes.
Qed.

(** The fuel only bounds the loop: a result obtained with some fuel is
    the result with any larger fuel. *)
Lemma insert_loop_fuel_mono (fuel : nat) :
  ∀ (fuel' : nat) (cap0 : Z) (is_self : bool) (node : BucketNode)
    (key : str) (pid : Z) (r : BucketNode * bool),
    (fuel ≤ fuel')%nat →
    insert_loop fuel cap0 is_self node key pid = Ok r →
    insert_loop fuel' cap0 is_self node key pid = Ok r.
Proof.
  induction fuel as [|fuel IH]; intros fuel' cap0 is_self node key pid r Hle Hrun;
    [done|].
  destruct fuel' as [|fuel']; [lia|]. cbn [insert_loop] in *.
  destruct (len (items node) <? capacity node); [done|].
  inv_bind Hrun as [n' went] Hrec.
  by rewrite (IH fuel' _ _ _ _ _ _ ltac:(lia) Hrec).
Qed.

(** With no positive capacity anywhere the loop allocates node after
    node and never returns. *)
Lemma insert_loop_nonpos (fuel : nat) :
  ∀ (cap0 : Z) (is_self : bool) (node : BucketNode) (key : str) (pid : Z),
    cap0 ≤ 0 →
    (∀ c its, (c, its) ∈ chain_nodes node → c ≤ 0) →
    insert_loop fuel cap0 is_self node key pid = OutOfFuel.
Proof.
  induction fuel as [|fuel IH]; intros cap0 is_self node key pid Hcap Hall; [done|].
  cbn [insert_loop].
  assert (capacity node ≤ 0) as Hc.
  { apply (Hall _ (items node)). rewrite chain_nodes_unfold. left. }
  destruct (Z.ltb_spec (len (items node)) (capacity node)) as [Hlt|_].
  { unfold len in Hlt. lia. }
  rewrite IH; [done|done|].
  intros c its Hin. destruct (next node) as [n|] eqn:Hnext.
  - apply (Hall c its). rewrite chain_nodes_unfold, Hnext. by right.
  - cbn in Hin. apply list_elem_of_singleton in Hin. by injection Hin as -> _.
Qed.

(** *** The walk on the node list *)

Lemma place_first_room (cap0 : Z) (e : entry) (ns : list (Z * list entry)) :
  ∃ i : nat,
    (∀ j c its, (j < i)%nat → ns !! j = Some (c, its) → c ≤ len its)
    ∧ ((∃ c its, ns !! i = Some (c, its) ∧ len its < c
                 ∧ place cap0 ns e = <[i := (c, its ++ [e])]> ns)
       ∨ (i = length ns ∧ place cap0 ns e = ns ++ [(cap0, [e])]))
    ∧ (i = 0%nat ↔
         match ns with [] => True | (c, its) :: _ => len its < c end).
Proof.
  induction ns as [|[c its] rest IH]; cbn [place].
  - exists 0%nat. split; [intros; lia|]. split; [by right|done].
  - destruct (Z.ltb_spec (len its) c) as [Hroom|Hfull].
    + exists 0%nat. split; [intros; lia|]. split; [|done].
      left. exists c, its. done.
    + destruct IH as (i & Hbefore & Hat & _). exists (S i).
      split; [|split].
      * intros [|j] c' its' Hj Hlook; cbn in Hlook.
        -- by injection Hlook as <- <-.
        -- apply (Hbefore j); [lia|done].
      * destruct Hat as [(c' & its' & Hlook & Hroom & Heq)|[-> Heq]].
        -- left. exists c', its'. cbn. by rewrite Heq.
        -- right. cbn. by rewrite Heq.
      * split; [done|lia].
Qed.

Lemma place_length (cap0 : Z) (e : entry) (ns : list (Z * list entry)) :
  (length ns ≤ length (place cap0 ns e) ≤ S (length ns))%nat.
Proof.
  induction ns as [|[c its] rest IH]; cbn [place]; [cbn; lia|].
  destruct (len its <? c); cbn [length]; lia.
Qed.

(** A node is added only when every node of the chain is full. *)
Lemma place_grows (cap0 : Z) (e : entry) (ns : list (Z * list entry)) :
  length (place cap0 ns e) = S (length ns) →
  ∀ i c its, ns !! i = Some (c, its) → c ≤ len its.
Proof.
  induction ns as [|[c its] rest IH]; cbn [place]; [done|].
  destruct (Z.ltb_spec (len its) c) as [Hroom|Hfull]; cbn [length].
  - lia.
  - intros Hlen [|i] c' its' Hlook; cbn in Hlook.
    + by injection Hlook as <- <-.
    + apply (IH ltac:(lia) i). done.
Qed.

(** *** [insert] *)

(** C5.  On a chain whose head has positive capacity, [insert] returns
    as soon as the loop is given more iterations than the chain has
    nodes.  The entry is appended to the first node that has room, all
    other nodes being unchanged; when no node has room, a new node with
    the capacity of the head is linked after the last one and holds the
    entry.  The result is [true] exactly when that node is not the
    head. *)
Theorem insert_spec (fuel : nat) (self : BucketNode) (key : str) (pid : Z) :
  0 < capacity self →
  (length (chain_nodes self) < fuel)%nat →
  ∃ (self' : BucketNode) (went_overflow : bool) (i : nat),
    insert fuel self key pid = Ok (self', went_overflow)
    ∧ (∀ j c its, (j < i)%nat →
         chain_nodes self !! j = Some (c, its) → c ≤ len its)
    ∧ ((∃ c its,
          chain_nodes self !! i = Some (c, its) ∧ len its < c
          ∧ chain_nodes self' =
              <[i := (c, its ++ [(key, pid)])]> (chain_nodes self))
       ∨ (i = length (chain_nodes self)
          ∧ chain_nodes self' =
              chain_nodes self ++ [(capacity self, [(key, pid)])]))
    ∧ (went_overflow = true ↔ i ≠ 0%nat).
Proof.
  intros Hcap Hfuel. unfold insert.
  destruct (insert_loop_Ok self fuel (capacity self) true key pid Hcap Hfuel)
    as (self' & Hrun & Hnodes & _).
  destruct (place_first_room (capacity self) (key, pid) (chain_nodes self))
    as (i & Hbefore & Hat & Hhead).
  exists self', (if len (items self) <? capacity self then negb true else true), i.
  rewrite Hnodes. split; [done|]. split; [done|]. split; [done|].
  rewrite chain_nodes_unfold in Hhead. rewrite Hhead.
  destruct (Z.ltb_spec (len (items self)) (capacity self)); cbn; split;
    intros; try done; lia.
Qed.

(** A head of capacity 1 that is already full: the entry goes to a new
    overflow node. *)
Lemma insert_spec_witness :
  let self := {| capacity := 1; items := [(py_str "a", 0)]; next := None |} in
  ∃ (self' : BucketNode) (went_overflow : bool) (i : nat),
    insert 2 self (py_str "b") 7 = Ok (self', went_overflow)
    ∧ (∀ j c its, (j < i)%nat →
         chain_nodes self !! j = Some (c, its) → c ≤ len its)
    ∧ ((∃ c its,
          chain_nodes self !! i = Some (c, its) ∧ len its < c
          ∧ chain_nodes self' =
              <[i := (c, its ++ [(py_str "b", 7)])]> (chain_nodes self))
       ∨ (i = length (chain_nodes self)
          ∧ chain_nodes self' =
              chain_nodes self ++ [(capacity self, [(py_str "b", 7)])]))
    ∧ (went_overflow = true ↔ i ≠ 0%nat).
Proof.
  apply (insert_spec 2 {| capacity := 1; items := [(py_str "a", 0)]; next := None |}
           (py_str "b") 7).
  - reflexivity.
  - cbn. lia.
Defined.

Example insert_head_then_overflow :
  let head := BucketNode_init 2 in
  (e1 ← insert 3 head (py_str "a") 0;
   e2 ← insert 3 e1.1 (py_str "b") 0;
   e3 ← insert 3 e2.1 (py_str "c") 1;
   Ok (e1.2, e2.2, e3.2, chain_nodes e3.1))
  = Ok (false, false, true,
        [(2, [(py_str "a", 0); (py_str "b", 0)]); (2, [(py_str "c", 1)])]).
Proof. vm_compute. reflexivity. Qed.

(** With capacity 0 the loop never returns, whatever fuel it is given. *)
Example insert_capacity_zero (fuel : nat) :
  insert fuel (BucketNode_init 0) (py_str "a") 0 = OutOfFuel.
Proof.
  apply insert_loop_nonpos; [done|].
  intros c its Hin. cbn in Hin. apply list_elem_of_singleton in Hin.
  by injection Hin as -> _.
Qed.

(** *** Chains of one capacity, full but for the last node *)

Section FullButLast.

Variable cap : Z.
Hypothesis cap_pos : 0 < cap.

Lemma full_but_last_place (e : entry) (ns : list (Z * list entry)) :
  full_but_last cap ns → full_but_last cap (place cap ns e).
Proof.
  induction ns as [|[c its] rest IH]; cbn [place].
  - intros _. cbn. unfold len. cbn. lia.
  - intros (-> & Hits & Hrest).
    destruct (Z.ltb_spec (len its) cap) as [Hroom|Hfull].
    + destruct rest as [|n rest]; [|lia].
      cbn. unfold len in *. rewrite length_app. cbn. lia.
    + cbn [full_but_last]. split; [done|]. split; [|by apply IH].
      destruct rest as [|[c' its'] rest]; cbn [place].
      * lia.
      * by destruct (len its' <? c').
Qed.

Lemma place_items (e : entry) (ns : list (Z * list entry)) :
  full_but_last cap ns →
  concat (map snd (place cap ns e)) = concat (map snd ns) ++ [e].
Proof.
  induction ns as [|[c its] rest IH]; cbn [place]; [done|].
  intros (-> & Hits & Hrest).
  destruct (Z.ltb_spec (len its) cap) as [Hroom|Hfull].
  - destruct rest as [|n rest]; [|lia].
    cbn. by rewrite !app_nil_r.
  - cbn. rewrite IH by done. by rewrite app_assoc.
Qed.

Lemma full_but_last_lookup (ns : list (Z * list entry)) :
  full_but_last cap ns →
  ∀ i c its, ns !! i = Some (c, its) →
    c = cap ∧ len its ≤ cap ∧ ((S i < length ns)%nat → len its = cap).
Proof.
  induction ns as [|[c its] rest IH]; [done|].
  intros (-> & Hits & Hrest) [|i] c' its' Hlook; cbn in Hlook.
  - injection Hlook as <- <-. split; [done|].
    destruct rest; cbn [length]; split; lia.
  - destruct (IH Hrest i c' its' Hlook) as (-> & Hle & Hfull).
    split; [done|]. split; [done|]. cbn [length]. intros ?. apply Hfull. lia.
Qed.

Lemma insert_full_but_last (fuel : nat) (self : BucketNode) (key : str) (pid : Z) :
  full_but_last cap (chain_nodes self) →
  (length (chain_nodes self) < fuel)%nat →
  ∃ self',
    insert fuel self key pid = Ok (self', negb (len (items self) <? cap))
    ∧ chain_nodes self' = place cap (chain_nodes self) (key, pid).
Proof.
  intros Hshape Hfuel.
  assert (capacity self = cap) as Hc.
  { rewrite chain_nodes_unfold in Hshape. by destruct Hshape as (-> & _). }
  unfold insert. rewrite Hc.
  destruct (insert_loop_Ok self fuel cap true key pid cap_pos Hfuel)
    as (self' & Hrun & Hnodes & _).
  exists self'. split; [|done]. rewrite Hrun, Hc.
  by destruct (len (items self) <? cap).
Qed.

End FullButLast.

(** *** Sequences of insertions *)

Lemma insert_seq_snoc (fuel : nat) (self : BucketNode) (es : list entry) (e : entry) :
  insert_seq fuel self (es ++ [e]) =
    s ← insert_seq fuel self es; '(s', _) ← insert fuel s e.1 e.2; Ok s'.
Proof.
  unfold insert_seq. rewrite for_each_app.
  match goal with |- ?m ≫= _ = _ => destruct m as [s| |] end; cbn; [|done|done].
  by destruct (insert fuel s e.1 e.2) as [[s' w]| |].
Qed.

(** C6.  Starting from a fresh bucket of positive capacity, any sequence
    of [insert] calls completes (given more loop iterations than calls)
    and leaves a chain in which every node has the capacity of the
    bucket and at most that many entries, every node that has an
    overflow link is full, and each overflow link was created by one of
    the calls of the sequence, which found that node full and last in
    the chain. *)
Theorem chain_shape_invariant (cap : Z) (fuel : nat) (es : list entry) :
  0 < cap →
  (length es < fuel)%nat →
  ∃ s : BucketNode,
    insert_seq fuel (BucketNode_init cap) es = Ok s
    ∧ (∀ i c its, chain_nodes s !! i = Some (c, its) →
         c = cap ∧ len its ≤ c
         ∧ ((S i < length (chain_nodes s))%nat → len its = c))
    ∧ (∀ i, (S i < length (chain_nodes s))%nat →
         ∃ es1 e es2 s1 s2 went c its,
           es = es1 ++ e :: es2
           ∧ insert_seq fuel (BucketNode_init cap) es1 = Ok s1
           ∧ insert fuel s1 e.1 e.2 = Ok (s2, went)
           ∧ length (chain_nodes s1) = S i
           ∧ chain_nodes s1 !! i = Some (c, its) ∧ len its = c
           ∧ length (chain_nodes s2) = S (S i)).
Proof.
  intros Hcap Hfuel.
  enough (∃ s : BucketNode,
            insert_seq fuel (BucketNode_init cap) es = Ok s
            ∧ full_but_last cap (chain_nodes s)
            ∧ (length (chain_nodes s) ≤ S (length es))%nat
            ∧ (∀ i, (S i < length (chain_nodes s))%nat →
                 ∃ es1 e es2 s1 s2 went c its,
                   es = es1 ++ e :: es2
                   ∧ insert_seq fuel (BucketNode_init cap) es1 = Ok s1
                   ∧ insert fuel s1 e.1 e.2 = Ok (s2, went)
                   ∧ length (chain_nodes s1) = S i
                   ∧ chain_nodes s1 !! i = Some (c, its) ∧ len its = c
                   ∧ length (chain_nodes s2) = S (S i)))
    as (s & Hrun & Hshape & _ & Hhist).
  { exists s. split; [done|]. split; [|done].
    intros i c its Hlook.
    destruct (full_but_last_lookup cap _ Hshape i c its Hlook) as (-> & ? & ?).
    done. }
  induction es as [|e es IH] using rev_ind.
  - exists (BucketNode_init cap). split; [done|]. split.
    { cbn. unfold len. cbn. lia. }
    split; [cbn; lia|]. cbn. intros i ?. lia.
  - rewrite length_app in Hfuel. cbn in Hfuel.
    destruct IH as (s & Hrun & Hshape & Hlen & Hhist); [lia|].
    destruct (insert_full_but_last cap Hcap fuel s e.1 e.2 Hshape)
      as (s2 & Hins & Hnodes); [lia|].
    rewrite <- surjective_pairing in Hnodes.
    exists s2. rewrite insert_seq_snoc, Hrun. cbn. rewrite Hins. cbn.
    pose proof (place_length cap e (chain_nodes s)) as Hpl.
    split; [done|]. split; [rewrite Hnodes; by apply full_but_last_place|].
    split; [rewrite Hnodes, length_app; cbn; lia|].
    intros i Hi. rewrite Hnodes in Hi.
    destruct (decide (S i < length (chain_nodes s))%nat) as [Hold|Hnew].
    + destruct (Hhist i Hold)
        as (es1 & e0 & es2 & s1 & s1' & went & c & its & -> & H1 & H2 & H3 & H4 & H5 & H6).
      exists es1, e0, (es2 ++ [e]), s1, s1', went, c, its.
      rewrite <- app_assoc. done.
    + assert (length (chain_nodes s) = S i) as Hsi by lia.
      assert (length (place cap (chain_nodes s) e) = S (length (chain_nodes s)))
        as Hgrow by lia.
      destruct (lookup_lt_is_Some_2 (chain_nodes s) i) as [[c its] Hlook]; [lia|].
      destruct (full_but_last_lookup cap _ Hshape i c its Hlook) as (-> & Hle & _).
      pose proof (place_grows cap e _ Hgrow i cap its Hlook) as Hge.
      exists es, e, [], s, s2, (negb (len (items s) <? cap)), cap, its.
      rewrite Hnodes. repeat split; try done; lia.
Qed.

Lemma chain_shape_invariant_witness :
  let es := [(py_str "a", 0); (py_str "b", 0); (py_str "c", 1)] in
  ∃ s : BucketNode,
    insert_seq 4 (BucketNode_init 1) es = Ok s
    ∧ (∀ i c its, chain_nodes s !! i = Some (c, its) →
         c = 1 ∧ len its ≤ c
         ∧ ((S i < length (chain_nodes s))%nat → len its = c))
    ∧ (∀ i, (S i < length (chain_nodes s))%nat →
         ∃ es1 e es2 s1 s2 went c its,
           es = es1 ++ e :: es2
           ∧ insert_seq 4 (BucketNode_init 1) es1 = Ok s1
           ∧ insert 4 s1 e.1 e.2 = Ok (s2, went)
           ∧ length (chain_nodes s1) = S i
           ∧ chain_nodes s1 !! i = Some (c, its) ∧ len its = c
           ∧ length (chain_nodes s2) = S (S i)).
Proof.
  apply (chain_shape_invariant 1 4
           [(py_str "a", 0); (py_str "b", 0); (py_str "c", 1)]).
  - reflexivity.
  - cbn. lia.
Defined.

Example insert_seq_three :
  (s ← insert_seq 4 (BucketNode_init 1)
         [(py_str "a", 0); (py_str "b", 0); (py_str "c", 1)];
   Ok (chain_nodes s))
  = Ok [(1, [(py_str "a", 0)]); (1, [(py_str "b", 0)]); (1, [(py_str "c", 1)])].
Proof. vm_compute. reflexivity. Qed.

End Chain.

(** ** The float quotient and its ceiling *)

Section FloatQuotient.

Lemma pow2_pos (s : Z) : 0 ≤ s → 0 < 2 ^ s.
Proof. intros. by apply Z.pow_pos_nonneg. Qed.

Lemma shl_pos (x s : Z) : 0 < x → 0 < shl x s.
Proof.
  intros Hx. unfold shl. pose proof (pow2_pos (Z.max 0 s) ltac:(lia)). nia.
Qed.

Lemma shl_nonneg_exp (x s : Z) : 0 ≤ s → shl x s = x * 2 ^ s.
Proof. intros. unfold shl. by rewrite Z.max_r. Qed.

Lemma shl_neg_exp (x s : Z) : s ≤ 0 → shl x s = x.
Proof. intros. unfold shl. rewrite Z.max_l by done. cbn. lia. Qed.

Lemma round_half_even_cases (num den : Z) :
  0 < den →
  let q := num / den in
  let r := num mod den in
  num = den * q + r ∧ 0 ≤ r < den
  ∧ ((round_half_even num den = q ∧ 2 * r ≤ den)
     ∨ (round_half_even num den = q + 1 ∧ den ≤ 2 * r)).
Proof.
  intros Hden q r. subst q r. split; [by apply Z.div_mod; lia|].
  split; [by apply Z.mod_pos_bound|].
  unfold round_half_even.
  destruct (Z.ltb_spec (2 * (num mod den)) den); [left; lia|].
  destruct (Z.ltb_spec den (2 * (num mod den))); [right; lia|].
  destruct (Z.even (num / den)); [left|right]; lia.
Qed.

Lemma round_half_even_nonneg (num den : Z) :
  0 ≤ num → 0 < den → 0 ≤ round_half_even num den.
Proof.
  intros Hnum Hden.
  destruct (round_half_even_cases num den Hden) as (_ & _ & [[-> _]|[-> _]]);
    pose proof (Z.div_pos num den Hnum Hden); lia.
Qed.

Lemma float_ceil_nonneg (f : Z * Z) : 0 ≤ f.1 → 0 ≤ float_ceil f.
Proof.
  destruct f as [m e]. intros Hm. unfold float_ceil. cbn [fst snd] in *.
  destruct (Z.leb_spec 0 e).
  - pose proof (pow2_pos e ltac:(done)). nia.
  - pose proof (pow2_pos (- e) ltac:(lia)) as Hp.
    assert ((- m) / 2 ^ (- e) ≤ 0); [|lia].
    apply Z.div_le_upper_bound; lia.
Qed.

Lemma float_floor_nonneg (f : Z * Z) : 0 ≤ f.1 → 0 ≤ float_floor f.
Proof.
  destruct f as [m e]. intros Hm. unfold float_floor. cbn [fst snd] in *.
  destruct (Z.leb_spec 0 e).
  - pose proof (pow2_pos e ltac:(done)). nia.
  - apply Z.div_pos; [done|]. apply pow2_pos. lia.
Qed.

Lemma float_quot_nonneg (a b : Z) : 0 < a → 0 < b → 0 ≤ (float_quot a b).1.
Proof.
  intros Ha Hb. unfold float_quot. cbn [fst].
  apply round_half_even_nonneg.
  - pose proof (shl_pos a (- Z.max (quot_log2 a b - 52) (-1074)) Ha). lia.
  - by apply shl_pos.
Qed.

(** [quot_log2 a b] is at most the binary logarithm of [a / b]. *)
Lemma quot_log2_le (a b : Z) :
  0 < a → 0 < b →
  shl b (quot_log2 a b) ≤ shl a (- quot_log2 a b).
Proof.
  intros Ha Hb. unfold quot_log2.
  set (d := Z.log2 a - Z.log2 b).
  destruct (Z.ltb_spec (shl a (- d)) (shl b d)) as [_|Hge]; [|done].
  destruct (Z.log2_spec a Ha) as [Ha1 Ha2].
  destruct (Z.log2_spec b Hb) as [Hb1 Hb2].
  pose proof (Z.log2_nonneg a) as Hla. pose proof (Z.log2_nonneg b) as Hlb.
  rewrite <- Z.add_1_r in Ha2, Hb2.
  destruct (Z.le_gt_cases 0 (d - 1)) as [Hd|Hd].
  - rewrite shl_nonneg_exp, shl_neg_exp by lia.
    assert (2 ^ (Z.log2 b + 1) * 2 ^ (d - 1) = 2 ^ Z.log2 a) as Hpow.
    { rewrite <- Z.pow_add_r by lia. f_equal; lia. }
    pose proof (pow2_pos (d - 1) Hd). nia.
  - rewrite shl_neg_exp, shl_nonneg_exp by lia.
    assert (2 ^ Z.log2 a * 2 ^ (- (d - 1)) = 2 ^ (Z.log2 b + 1)) as Hpow.
    { rewrite <- Z.pow_add_r by lia. f_equal; lia. }
    pose proof (pow2_pos (- (d - 1)) ltac:(lia)). nia.
Qed.

Lemma ceil_div_spec (a b : Z) :
  0 < b → let c := - ((- a) / b) in (c - 1) * b < a ∧ a ≤ c * b.
Proof.
  intros Hb c. subst c.
  pose proof (Z.div_mod (- a) b ltac:(lia)).
  pose proof (Z.mod_pos_bound (- a) b Hb). nia.
Qed.

Lemma ceil_div_unique (m P c : Z) :
  0 < P → (c - 1) * P < m → m ≤ c * P → - ((- m) / P) = c.
Proof.
  intros HP Hlo Hhi.
  assert ((- m) / P = - c); [|lia].
  symmetry. apply (Z.div_unique_pos (- m) P (- c) (c * P - m)); lia.
Qed.

(** Rounding to the grid of step [1 / P] keeps the ceiling, as long as
    the grid is finer than [2 / b]. *)
Lemma round_keeps_ceiling (a b P : Z) :
  0 < a → 0 < b → 0 < P → b < 2 * P →
  - ((- round_half_even (a * P) b) / P) = - ((- a) / b).
Proof.
  intros Ha Hb HP Hfine.
  destruct (ceil_div_spec a b Hb) as [Hlo Hhi].
  set (c := - ((- a) / b)) in *.
  destruct (round_half_even_cases (a * P) b Hb) as (Hdm & Hr & Hcases).
  set (q := (a * P) / b) in *. set (r := (a * P) mod b) in *.
  apply ceil_div_unique; [done| |].
  - assert ((c - 1) * P ≤ q) as Hq by nia.
    destruct Hcases as [[-> Hhalf]|[-> Hhalf]]; [|lia].
    destruct (decide (q = (c - 1) * P)) as [Heq|?]; [|lia].
    nia.
  - assert (q ≤ c * P) as Hq by nia.
    destruct Hcases as [[-> Hhalf]|[-> Hhalf]]; [done|].
    destruct (decide (q = c * P)) as [Heq|?]; [|lia].
    nia.
Qed.

Lemma float_quot_ceil_exact (a b : Z) :
  0 < a → a < 2 ^ 53 → 0 < b → b < 2 ^ 1075 →
  float_ceil (float_quot a b) = - ((- a) / b).
Proof.
  intros Ha Ha53 Hb Hb1075.
  pose proof (quot_log2_le a b Ha Hb) as Hk.
  set (k := quot_log2 a b) in *.
  assert (k ≤ 52) as Hk52.
  { destruct (Z.le_gt_cases k 52) as [?|Hbig]; [done|].
    rewrite shl_nonneg_exp, shl_neg_exp in Hk by lia.
    assert (2 ^ 53 ≤ 2 ^ k) by (apply Z.pow_le_mono_r; lia). nia. }
  unfold float_quot. fold k. unfold float_ceil. cbn [fst snd].
  set (e := Z.max (k - 52) (-1074)).
  destruct (Z.leb_spec 0 e) as [He|He].
  - assert (k = 52) as Hk' by lia. assert (e = 0) as -> by lia.
    rewrite Hk' in Hk. rewrite shl_nonneg_exp, shl_neg_exp in Hk by lia.
    assert (b = 1) as ->.
    { change (2 ^ 53) with 9007199254740992 in Ha53.
      change (2 ^ 52) with 4503599627370496 in Hk. clear - Hk Ha53 Hb. lia. }
    cbn [Z.opp]. rewrite !shl_neg_exp by lia. unfold round_half_even.
    rewrite !Z.div_1_r, Z.mod_1_r. change (2 * 0 <? 1) with true.
    cbv iota. rewrite Z.pow_0_r. lia.
  - rewrite shl_nonneg_exp, (shl_neg_exp b) by lia.
    apply round_keeps_ceiling; [done|done|apply pow2_pos; lia|].
    destruct (Z.max_spec (k - 52) (-1074)) as [[_ Hmax]|[_ Hmax]]; fold e in Hmax.
    + rewrite Hmax. cbn [Z.opp]. change (2 * 2 ^ 1074) with (2 ^ 1075). done.
    + replace (2 * 2 ^ (- e)) with (2 ^ (53 - k)).
      2:{ rewrite Hmax. replace (53 - k) with (1 + (- (k - 52))) by lia.
          by rewrite Z.pow_add_r by lia. }
      destruct (Z.le_gt_cases 0 k) as [Hk0|Hk0].
      * rewrite shl_nonneg_exp, shl_neg_exp in Hk by lia.
        assert (2 ^ (53 - k) * 2 ^ k = 2 ^ 53) as Hpow.
        { rewrite <- Z.pow_add_r by lia. f_equal; lia. }
        pose proof (pow2_pos k Hk0). nia.
      * rewrite shl_neg_exp, shl_nonneg_exp in Hk by lia.
        assert (2 ^ 53 * 2 ^ (- k) = 2 ^ (53 - k)) as Hpow.
        { rewrite <- Z.pow_add_r by lia. f_equal; lia. }
        pose proof (pow2_pos (- k) ltac:(lia)). nia.
Qed.

Lemma py_ceil_div_pos (a b : Z) :
  0 ≤ a → 0 < b →
  ∃ c, py_ceil_div a b = Ok c ∧ 0 ≤ c ∧ (a = 0 → c = 0).
Proof.
  intros Ha Hb. unfold py_ceil_div.
  destruct (Z.eqb_spec b 0) as [?|_]; [lia|].
  destruct (Z.eqb_spec a 0) as [?|Hne]; [by exists 0|].
  destruct (Z.ltb_spec 0 a) as [_|?]; [|lia].
  destruct (Z.ltb_spec 0 b) as [_|?]; [|lia]. cbn [Bool.eqb].
  eexists. split; [done|]. split; [|lia].
  apply float_ceil_nonneg, float_quot_nonneg; lia.
Qed.

Lemma py_ceil_div_neg (a b : Z) :
  0 ≤ a → b < 0 →
  ∃ c, py_ceil_div a b = Ok c ∧ c ≤ 0 ∧ (a = 0 → c = 0).
Proof.
  intros Ha Hb. unfold py_ceil_div.
  destruct (Z.eqb_spec b 0) as [?|_]; [lia|].
  destruct (Z.eqb_spec a 0) as [?|Hne]; [by exists 0|].
  destruct (Z.ltb_spec 0 a) as [_|?]; [|lia].
  destruct (Z.ltb_spec 0 b) as [?|_]; [lia|]. cbn [Bool.eqb].
  eexists. split; [done|]. split; [|lia].
  pose proof (float_floor_nonneg (float_quot (Z.abs a) (Z.abs b))
                (float_quot_nonneg (Z.abs a) (Z.abs b) ltac:(lia) ltac:(lia))).
  lia.
Qed.

(** Below 2^53 records and below a capacity of 2^1075 the float quotient
    has the ceiling of the exact one. *)
Lemma py_ceil_div_exact (a b : Z) :
  0 ≤ a → a < 2 ^ 53 → 0 < b → b < 2 ^ 1075 →
  py_ceil_div a b = Ok (- ((- a) / b)).
Proof.
  intros Ha Ha53 Hb Hb1075. unfold py_ceil_div.
  destruct (Z.eqb_spec b 0) as [?|_]; [lia|].
  destruct (Z.eqb_spec a 0) as [->|Hne].
  { cbn [Z.opp]. by rewrite Z.div_0_l by lia. }
  destruct (Z.ltb_spec 0 a) as [_|?]; [|lia].
  destruct (Z.ltb_spec 0 b) as [_|?]; [|lia]. cbn [Bool.eqb].
  rewrite !Z.abs_eq by lia. f_equal.
  apply float_quot_ceil_exact; lia.
Qed.

(** Values of [math.ceil(a / b)] where rounding shows: 2^53 + 1 is not a
    float, and 1 / 2^1075 is rounded to 0.0. *)
Example py_ceil_div_values :
  py_ceil_div 7 2 = Ok 4
  ∧ py_ceil_div 7 (-2) = Ok (-3)
  ∧ py_ceil_div (2 ^ 53 + 1) 1 = Ok (2 ^ 53)
  ∧ py_ceil_div 1 (2 ^ 1075 - 1) = Ok 1
  ∧ py_ceil_div 1 (2 ^ 1075) = Ok 0
  ∧ py_ceil_div 3 (2 ^ 1076) = Ok 1.
Proof. repeat split; vm_compute; reflexivity. Qed.

End FloatQuotient.

(** ** Hash index *)

Section Index.

Lemma find_items_app (l1 l2 : list entry) (key : str) :
  find_items (l1 ++ l2) key =
    match find_items l1 key with
    | Some pid => Some pid
    | None => find_items l2 key
    end.
Proof.
  induction l1 as [|[k pid] l1 IH]; cbn; [done|].
  by destruct (decide (k = key)).
Qed.

Lemma find_chain_items (node : BucketNode) (key : str) :
  find node key = find_items (chain_items node) key.
Proof.
  unfold chain_items.
  induction node as [c its|c its n IH] using BucketNode_chain_ind; cbn.
  - rewrite app_nil_r. by destruct (find_items its key).
  - by rewrite find_items_app, IH.
Qed.

Lemma find_items_page_entries (p : Page) (key : str) :
  find_items (page_entries p) key =
    if decide (key ∈ records p) then Some (page_id p) else None.
Proof.
  unfold page_entries. induction (records p) as [|k recs IH]; cbn.
  - rewrite decide_False; [done|]. apply not_elem_of_nil.
  - destruct (decide (k = key)) as [->|Hne].
    + rewrite decide_True; [done|left].
    + rewrite IH. destruct (decide (key ∈ recs)) as [Hin|Hnin].
      * rewrite decide_True; [done|by right].
      * rewrite decide_False; [done|].
        intros [->|?]%elem_of_cons; done.
Qed.

Lemma find_items_entries_found (key : str) (pages : list Page) :
  ∀ (i : nat) (p : Page),
    pages !! i = Some p → key ∈ records p →
    (∀ j q, (j < i)%nat → pages !! j = Some q → key ∉ records q) →
    find_items (entries pages) key = Some (page_id p).
Proof.
  unfold entries.
  induction pages as [|p0 pages IH]; intros i p Hi Hin Hbefore; [done|].
  cbn [map concat]. rewrite find_items_app, find_items_page_entries.
  destruct i as [|i].
  - injection Hi as ->. by rewrite decide_True.
  - rewrite decide_False by (apply (Hbefore 0%nat p0); [lia|done]).
    apply (IH i p); [done|done|].
    intros j q Hj Hq. apply (Hbefore (S j) q); [lia|done].
Qed.

Lemma find_items_entries_absent (key : str) (pages : list Page) :
  (∀ p, p ∈ pages → key ∉ records p) →
  find_items (entries pages) key = None.
Proof.
  unfold entries. induction pages as [|p0 pages IH]; intros Habs; [done|].
  cbn [map concat]. rewrite find_items_app, find_items_page_entries.
  rewrite decide_False by (apply Habs; left).
  apply IH. intros p Hp. apply Habs. by right.
Qed.

(** *** The loops of [build] run over [entries] *)

Lemma build_page_entries (fuel : nat) (p : Page) (s : HashIndex) :
  build_page fuel s p = for_each (build_entry fuel) (page_entries p) s.
Proof.
  unfold build_page, page_entries. revert s.
  induction (records p) as [|k recs IH]; intros s; cbn [for_each map]; [done|].
  change (build_entry fuel s (k, page_id p)) with (build_record fuel (page_id p) s k).
  destruct (build_record fuel (page_id p) s k) as [s1| |]; cbn; [apply IH|done|done].
Qed.

Lemma build_pages_entries (fuel : nat) (pages : list Page) (s : HashIndex) :
  for_each (build_page fuel) pages s =
    for_each (build_entry fuel) (entries pages) s.
Proof.
  unfold entries. revert s.
  induction pages as [|p pages IH]; intros s; cbn [for_each map concat]; [done|].
  rewrite for_each_app, build_page_entries.
  destruct (for_each (build_entry fuel) (page_entries p) s) as [s1| |]; cbn;
    [apply IH|done|done].
Qed.

Lemma total_records_entries (pages : list Page) :
  total_records pages = len (entries pages).
Proof.
  unfold total_records, entries, len.
  enough (∀ acc, fold_left (λ acc p, acc + Z.of_nat (length (records p))) pages acc
                 = acc + Z.of_nat (length (concat (map page_entries pages))))
    as Hgen by (rewrite Hgen; lia).
  induction pages as [|p pages IH]; intros acc; cbn [fold_left map concat].
  - cbn. lia.
  - rewrite IH, length_app. unfold page_entries. rewrite length_map. lia.
Qed.

(** *** One iteration of [build] *)

Lemma py_getitem_in_range {A : Type} (l : list A) (b : Z) :
  0 ≤ b < len l →
  ∃ x, l !! Z.to_nat b = Some x ∧ py_getitem l b = Ok (Z.to_nat b, x).
Proof.
  unfold len. intros Hb.
  destruct (lookup_lt_is_Some_2 l (Z.to_nat b)) as [x Hx]; [lia|].
  exists x. split; [done|]. unfold py_getitem, py_index.
  destruct (Z.leb_spec 0 b); [|lia].
  destruct (Z.ltb_spec b (Z.of_nat (length l))); [|lia].
  cbn. by rewrite Hx.
Qed.

Lemma py_getitem_Ok {A : Type} (l : list A) (i : Z) (pos : nat) (x : A) :
  py_getitem l i = Ok (pos, x) → l !! pos = Some x.
Proof.
  unfold py_getitem. intros H. inv_bind H as pos' Hpos.
  destruct (l !! pos') eqn:Hl; [|done]. by injection H as <- <-.
Qed.

Section Loop.

Variables (FR NB : Z) (fuel : nat).
Hypothesis FR_pos : 0 < FR.
Hypothesis NB_pos : 0 < NB.

Lemma build_entry_step (done : list entry) (s : HashIndex) (e : entry) :
  (S (length done) < fuel)%nat →
  build_inv FR NB done s →
  ∃ s',
    build_entry fuel s e = Ok s'
    ∧ build_inv FR NB (done ++ [e]) s'
    ∧ (overflow_inserts s' = overflow_inserts s
       ∨ (overflow_inserts s' = overflow_inserts s + 1
          ∧ collision_inserts s' = collision_inserts s + 1)).
Proof.
  intros Hfuel [Hfr Hnb Hlen Hins Hcnt Hchain Hfind].
  destruct e as [k pid]. unfold build_entry, build_record. cbn [fst snd].
  rewrite Hnb. unfold hash_fn, py_mod.
  destruct (Z.eqb_spec NB 0) as [?|_]; [lia|]. cbn.
  set (b := hash_acc k mod NB).
  assert (0 ≤ b < NB) as Hb by (by apply Z.mod_pos_bound).
  destruct (py_getitem_in_range (buckets s) b) as (primary & Hlook & Hget).
  { unfold len. lia. }
  rewrite Hget. cbn.
  destruct (Hchain _ _ Hlook) as [Hshape Hnodes].
  destruct (insert_full_but_last FR FR_pos fuel primary k pid Hshape)
    as (primary' & Hinsert & Hplace); [lia|].
  rewrite Hinsert. cbn.
  eexists. split; [done|].
  pose proof (place_length FR (k, pid) (chain_nodes primary)) as Hpl.
  split; [|cbn [collision_inserts overflow_inserts];
           destruct (Z.ltb_spec (len (items primary)) FR) as [Hroom|Hfull];
           destruct (Z.ltb_spec 0 (len (items primary))); cbn; lia].
  split; cbn [fr nb buckets inserts collision_inserts overflow_inserts].
  - done.
  - done.
  - by rewrite length_insert.
  - rewrite Hins. unfold len. rewrite length_app. cbn. lia.
  - destruct (Z.ltb_spec (len (items primary)) FR) as [Hroom|Hfull];
      destruct (Z.ltb_spec 0 (len (items primary))); cbn; lia.
  - intros b' node Hb'. rewrite length_app. cbn [length].
    destruct (decide (b' = Z.to_nat b)) as [->|Hne].
    + rewrite list_lookup_insert_eq in Hb' by (by eapply lookup_lt_Some).
      injection Hb' as <-. rewrite Hplace.
      split; [by apply full_but_last_place|lia].
    + rewrite list_lookup_insert_ne in Hb' by done.
      destruct (Hchain _ _ Hb') as [? ?]. split; [done|lia].
  - intros b' node key Hb' Hkey. rewrite find_items_app. cbn [find_items].
    destruct (decide (b' = Z.to_nat b)) as [->|Hne].
    + rewrite list_lookup_insert_eq in Hb' by (by eapply lookup_lt_Some).
      injection Hb' as <-.
      rewrite find_chain_items. unfold chain_items.
      rewrite Hplace, (place_items FR) by done.
      rewrite find_items_app. cbn [find_items].
      fold (chain_items primary). rewrite <- find_chain_items.
      by rewrite (Hfind _ _ key Hlook Hkey).
    + rewrite list_lookup_insert_ne in Hb' by done.
      rewrite (Hfind _ _ key Hb' Hkey).
      destruct (find_items done key); [done|].
      rewrite decide_False; [done|].
      intros ->. apply Hne. subst b. lia.
Qed.

(** The loop over a prefix of the entries. *)
Lemma build_entries_Ok (es : list entry) (s0 : HashIndex) :
  (length es < fuel)%nat →
  build_inv FR NB [] s0 →
  ∃ s', for_each (build_entry fuel) es s0 = Ok s' ∧ build_inv FR NB es s'.
Proof.
  intros Hfuel Hinv0.
  apply (for_each_invariant (build_inv FR NB)); [done|].
  intros done e rest s Hsplit Hinv.
  destruct (build_entry_step done s e) as (s' & Hrun & Hinv' & _);
    [|done|by exists s'].
  rewrite Hsplit, length_app in Hfuel. cbn [length] in Hfuel. lia.
Qed.

End Loop.

(** *** The whole of [build] *)

Lemma total_records_nonneg (pages : list Page) : 0 ≤ total_records pages.
Proof. rewrite total_records_entries. unfold len. lia. Qed.

Lemma py_range_length (n : Z) : length (py_range n) = Z.to_nat n.
Proof. unfold py_range. by rewrite length_map, length_seq. Qed.

Lemma fresh_buckets_lookup (cap n : Z) (b : nat) (node : BucketNode) :
  map (λ _, BucketNode_init cap) (py_range n) !! b = Some node →
  node = BucketNode_init cap.
Proof.
  intros Hb. apply list_elem_of_lookup_2, list_elem_of_In, in_map_iff in Hb.
  by destruct Hb as (_ & <- & _).
Qed.

Lemma build_init_Ok (self : HashIndex) (pages : list Page) :
  0 < fr self →
  ∃ s0,
    build_init self pages = Ok s0
    ∧ 0 < nb s0
    ∧ py_ceil_div (total_records pages) (fr self) = Ok (nb s0 - 1)
    ∧ build_inv (fr self) (nb s0) [] s0.
Proof.
  intros HFR. unfold build_init.
  destruct (py_ceil_div_pos (total_records pages) (fr self)
              (total_records_nonneg pages) HFR) as (c & Hc & Hc0 & _).
  rewrite Hc. cbn.
  set (NB := c + 1).
  assert (0 < NB) as HNB by lia.
  replace c with (NB - 1) by lia.
  eexists. split; [done|]. cbn [nb]. split; [done|]. split; [done|].
  split; cbn [fr nb buckets inserts collision_inserts overflow_inserts].
  - done.
  - done.
  - by rewrite length_map, py_range_length.
  - done.
  - lia.
  - intros b node ->%fresh_buckets_lookup. cbn. unfold len. cbn. lia.
  - by intros b node key ->%fresh_buckets_lookup _.
Qed.

Lemma build_Ok (fuel : nat) (self : HashIndex) (pages : list Page) :
  0 < fr self →
  total_records pages < Z.of_nat fuel →
  ∃ s',
    build fuel self pages = Ok s'
    ∧ 0 < nb s'
    ∧ py_ceil_div (total_records pages) (fr self) = Ok (nb s' - 1)
    ∧ build_inv (fr self) (nb s') (entries pages) s'.
Proof.
  intros HFR Hfuel. unfold build.
  destruct (build_init_Ok self pages HFR) as (s0 & Hinit & HNB & Hnb & Hinv0).
  rewrite Hinit. cbn. rewrite build_pages_entries.
  destruct (build_entries_Ok (fr self) (nb s0) fuel HFR HNB (entries pages) s0)
    as (s' & Hrun & Hinv); [|done|].
  { rewrite total_records_entries in Hfuel. unfold len in Hfuel. lia. }
  exists s'. rewrite (inv_nb _ _ _ _ Hinv). done.
Qed.

Lemma for_each_mono {S A : Type} (body body' : S → A → result S)
    (xs : list A) (s s' : S) :
  (∀ s x s1, body s x = Ok s1 → body' s x = Ok s1) →
  for_each body xs s = Ok s' → for_each body' xs s = Ok s'.
Proof.
  intros Hbody. revert s.
  induction xs as [|x xs IH]; intros s Hrun; cbn in *; [done|].
  inv_bind Hrun as s1 Hx. rewrite (Hbody _ _ _ Hx). cbn. by apply IH.
Qed.

(** The index that [build] returns does not depend on the fuel. *)
Lemma build_fuel_mono (fuel fuel' : nat) (self idx : HashIndex) (pages : list Page) :
  (fuel ≤ fuel')%nat →
  build fuel self pages = Ok idx → build fuel' self pages = Ok idx.
Proof.
  intros Hle Hrun. unfold build in *. inv_bind Hrun as s0 Hinit.
  rewrite Hinit. cbn.
  apply (for_each_mono (build_page fuel)); [|done].
  intros s p s1. unfold build_page.
  apply for_each_mono. clear - Hle. intros s key s1 Hrec.
  unfold build_record in *.
  inv_bind Hrec as b Hhash. rewrite Hhash. cbn.
  inv_bind Hrec as [pos primary] Hget. rewrite Hget. cbn.
  inv_bind Hrec as [primary' went] Hins.
  unfold insert in *. by rewrite (insert_loop_fuel_mono fuel fuel' _ _ _ _ _ _ Hle Hins).
Qed.

(** *** Bucket count *)

Lemma Qceiling_div (a b : Z) :
  0 < b → Qceiling (inject_Z a / inject_Z b) = - ((- a) / b).
Proof.
  intros Hb. destruct b as [|p|p]; try lia.
  unfold Qceiling, Qfloor, Qdiv, Qmult, Qinv, Qopp, inject_Z. cbn.
  by rewrite Z.mul_1_r.
Qed.

(** C2, as the code has it.  For every bucket-fill capacity FR > 0 and
    every page list, [build] completes with NB >= 1 buckets, and NB = 1
    when there is no record.  NB is the ceiling of NR / FR plus one, NR
    being the total number of records, as long as NR < 2^53 and
    FR < 2^1075: the code rounds NR / FR to a float before it takes the
    ceiling. *)
Theorem build_bucket_count (fuel : nat) (self : HashIndex) (pages : list Page) :
  0 < fr self →
  total_records pages < Z.of_nat fuel →
  ∃ idx,
    build fuel self pages = Ok idx
    ∧ 0 ≤ total_records pages
    ∧ (total_records pages < 2 ^ 53 → fr self < 2 ^ 1075 →
       nb idx = Qceiling (inject_Z (total_records pages) / inject_Z (fr self)) + 1)
    ∧ 1 ≤ nb idx
    ∧ (total_records pages = 0 → nb idx = 1)
    ∧ len (buckets idx) = nb idx.
Proof.
  intros HFR Hfuel.
  destruct (build_Ok fuel self pages HFR Hfuel) as (idx & Hrun & HNB & Hnb & Hinv).
  pose proof (total_records_nonneg pages) as Hnr0.
  exists idx. split; [done|]. split; [done|]. split.
  { intros Hnr Hfr.
    rewrite (py_ceil_div_exact _ _ Hnr0 Hnr HFR Hfr) in Hnb.
    injection Hnb as Hnb. rewrite Qceiling_div by done. lia. }
  split; [lia|]. split.
  - intros Hnr. rewrite Hnr in Hnb.
    destruct (py_ceil_div_pos 0 (fr self) ltac:(lia) HFR) as (c & Hc & _ & Hzero).
    rewrite Hc in Hnb. injection Hnb as Hnb. specialize (Hzero eq_refl). lia.
  - unfold len. rewrite (inv_buckets _ _ _ _ Hinv). lia.
Qed.

(** The scenario of the specification: seven keys in pages of three,
    FR = 2, hence NB = ceil(7 / 2) + 1 = 5. *)
Lemma build_bucket_count_witness :
  let self := {| fr := 2; nb := 0; buckets := [];
                 inserts := 0; collision_inserts := 0; overflow_inserts := 0 |} in
  let pages := [mkPage 0 [py_str "apple"; py_str "banana"; py_str "cherry"];
                mkPage 1 [py_str "date"; py_str "egg"; py_str "fig"];
                mkPage 2 [py_str "grape"]] in
  ∃ idx,
    build 8 self pages = Ok idx
    ∧ 0 ≤ total_records pages
    ∧ (total_records pages < 2 ^ 53 → fr self < 2 ^ 1075 →
       nb idx = Qceiling (inject_Z (total_records pages) / inject_Z (fr self)) + 1)
    ∧ 1 ≤ nb idx
    ∧ (total_records pages = 0 → nb idx = 1)
    ∧ len (buckets idx) = nb idx.
Proof.
  apply (build_bucket_count 8
           {| fr := 2; nb := 0; buckets := [];
              inserts := 0; collision_inserts := 0; overflow_inserts := 0 |}
           [mkPage 0 [py_str "apple"; py_str "banana"; py_str "cherry"];
            mkPage 1 [py_str "date"; py_str "egg"; py_str "fig"];
            mkPage 2 [py_str "grape"]]).
  - reflexivity.
  - vm_compute. reflexivity.
Defined.

(** The formula fails at FR = 2^1075 with one record: 1 / 2^1075 lies
    halfway between 0.0 and the least positive float and is rounded to
    0.0, so that [build] sets NB = 1 where ceil(NR / FR) + 1 is 2. *)
Lemma build_bucket_count_huge_fr :
  let self := {| fr := 2 ^ 1075; nb := 0; buckets := [];
                 inserts := 0; collision_inserts := 0; overflow_inserts := 0 |} in
  let pages := [mkPage 0 [py_str "a"]] in
  ∃ idx,
    build 2 self pages = Ok idx
    ∧ nb idx = 1
    ∧ Qceiling (inject_Z (total_records pages) / inject_Z (fr self)) + 1 = 2
    ∧ nb idx ≠ Qceiling (inject_Z (total_records pages) / inject_Z (fr self)) + 1.
Proof.
  eexists. split; [vm_compute; reflexivity|].
  split; [vm_compute; reflexivity|].
  split; [vm_compute; reflexivity|].
  vm_compute. discriminate.
Qed.

(** One step below, at FR = 2^1075 - 1, the quotient is rounded up to
    the least positive float and the formula holds. *)
Example build_bucket_count_large_fr :
  (idx ← build 2 {| fr := 2 ^ 1075 - 1; nb := 0; buckets := [];
                    inserts := 0; collision_inserts := 0; overflow_inserts := 0 |}
           [mkPage 0 [py_str "a"]];
   Ok (nb idx))
  = Ok 2.
Proof. vm_compute. reflexivity. Qed.

Example build_seven_keys :
  (idx ← build 8 {| fr := 2; nb := 0; buckets := [];
                    inserts := 0; collision_inserts := 0; overflow_inserts := 0 |}
           [mkPage 0 [py_str "apple"; py_str "banana"; py_str "cherry"];
            mkPage 1 [py_str "date"; py_str "egg"; py_str "fig"];
            mkPage 2 [py_str "grape"]];
   Ok (nb idx, len (buckets idx), inserts idx))
  = Ok (5, 5, 7).
Proof. vm_compute. reflexivity. Qed.

Example build_empty_store :
  (idx ← build 1 {| fr := 8; nb := 0; buckets := [];
                    inserts := 0; collision_inserts := 0; overflow_inserts := 0 |} [];
   r ← find_page idx (py_str "anything");
   Ok (nb idx, r, collision_rate idx, overflow_rate idx))
  = Ok (1, None, 0%Q, 0%Q).
Proof. vm_compute. reflexivity. Qed.

(** *** Lookup after a build *)

Lemma find_page_built (FR : Z) (done : list entry) (idx : HashIndex) (key : str) :
  0 < nb idx →
  build_inv FR (nb idx) done idx →
  find_page idx key = Ok (find_items done key).
Proof.
  intros HNB Hinv. unfold find_page.
  pose proof (inv_buckets _ _ _ _ Hinv) as Hlen.
  destruct (buckets idx) as [|n0 bs] eqn:Hbs; [cbn in Hlen; lia|].
  rewrite <- Hbs in *. clear Hbs n0 bs.
  unfold hash_fn, py_mod.
  destruct (Z.eqb_spec (nb idx) 0) as [?|_]; [lia|]. cbn.
  destruct (py_getitem_in_range (buckets idx) (hash_acc key mod nb idx))
    as (bucket & Hlook & Hget).
  { unfold len. rewrite Hlen.
    pose proof (Z.mod_pos_bound (hash_acc key) (nb idx) HNB). lia. }
  rewrite Hget. cbn. f_equal.
  apply (inv_find _ _ _ _ Hinv _ _ key Hlook).
  pose proof (Z.mod_pos_bound (hash_acc key) (nb idx) HNB). lia.
Qed.

(** C1.  After [build] (FR > 0), [find_page] returns, for a key that
    occurs in some page, the [page_id] of the first page in store order
    whose records contain it, which is the page whose entry for that
    key was inserted first; for a key that occurs in no page it returns
    not-found. *)
Theorem find_page_after_build (fuel : nat) (self : HashIndex) (pages : list Page) :
  0 < fr self →
  total_records pages < Z.of_nat fuel →
  ∃ idx,
    build fuel self pages = Ok idx
    ∧ ∀ key : str,
        (∀ (i : nat) (p : Page),
           pages !! i = Some p → key ∈ records p →
           (∀ j q, (j < i)%nat → pages !! j = Some q → key ∉ records q) →
           find_page idx key = Ok (Some (page_id p)))
        ∧ ((∀ p, p ∈ pages → key ∉ records p) →
           find_page idx key = Ok None).
Proof.
  intros HFR Hfuel.
  destruct (build_Ok fuel self pages HFR Hfuel) as (idx & Hrun & HNB & _ & Hinv).
  exists idx. split; [done|]. intros key.
  rewrite (find_page_built (fr self) (entries pages) idx key HNB Hinv).
  split.
  - intros i p Hi Hin Hbefore. f_equal.
    by apply (find_items_entries_found key pages i p).
  - intros Habs. f_equal. by apply find_items_entries_absent.
Qed.

(** Two pages that share the key "b": the first page wins. *)
Lemma find_page_after_build_witness :
  let self := {| fr := 2; nb := 0; buckets := [];
                 inserts := 0; collision_inserts := 0; overflow_inserts := 0 |} in
  let pages := [mkPage 10 [py_str "a"; py_str "b"];
                mkPage 11 [py_str "b"; py_str "c"]] in
  ∃ idx,
    build 5 self pages = Ok idx
    ∧ ∀ key : str,
        (∀ (i : nat) (p : Page),
           pages !! i = Some p → key ∈ records p →
           (∀ j q, (j < i)%nat → pages !! j = Some q → key ∉ records q) →
           find_page idx key = Ok (Some (page_id p)))
        ∧ ((∀ p, p ∈ pages → key ∉ records p) →
           find_page idx key = Ok None).
Proof.
  apply (find_page_after_build 5
           {| fr := 2; nb := 0; buckets := [];
              inserts := 0; collision_inserts := 0; overflow_inserts := 0 |}
           [mkPage 10 [py_str "a"; py_str "b"];
            mkPage 11 [py_str "b"; py_str "c"]]).
  - reflexivity.
  - vm_compute. reflexivity.
Defined.

Example find_page_first_page_wins :
  (idx ← build 5 {| fr := 2; nb := 0; buckets := [];
                    inserts := 0; collision_inserts := 0; overflow_inserts := 0 |}
           [mkPage 10 [py_str "a"; py_str "b"];
            mkPage 11 [py_str "b"; py_str "c"]];
   ra ← find_page idx (py_str "a");
   rb ← find_page idx (py_str "b");
   rc ← find_page idx (py_str "c");
   rd ← find_page idx (py_str "d");
   Ok (ra, rb, rc, rd))
  = Ok (Some 10, Some 10, Some 11, None).
Proof. vm_compute. reflexivity. Qed.

(** *** Counters *)

(** C10.  With FR >= 1, [build] completes with
    overflow_inserts <= collision_inserts <= inserts and with inserts
    equal to the total record count; and at every iteration of its
    loop, an insertion that is counted as an overflow is also counted
    as a collision. *)
Theorem build_counters (fuel : nat) (self : HashIndex) (pages : list Page) :
  1 ≤ fr self →
  total_records pages < Z.of_nat fuel →
  ∃ idx,
    build fuel self pages = Ok idx
    ∧ overflow_inserts idx ≤ collision_inserts idx
    ∧ collision_inserts idx ≤ inserts idx
    ∧ inserts idx = total_records pages
    ∧ ∀ done e rest,
        entries pages = done ++ e :: rest →
        ∃ s s1,
          (s0 ← build_init self pages; for_each (build_entry fuel) done s0) = Ok s
          ∧ build_entry fuel s e = Ok s1
          ∧ (overflow_inserts s1 = overflow_inserts s
             ∨ (overflow_inserts s1 = overflow_inserts s + 1
                ∧ collision_inserts s1 = collision_inserts s + 1)).
Proof.
  intros HFR Hfuel. assert (0 < fr self) as HFR' by lia.
  destruct (build_Ok fuel self pages HFR' Hfuel) as (idx & Hrun & HNB & _ & Hinv).
  exists idx. split; [done|].
  destruct (inv_counters _ _ _ _ Hinv) as (_ & Hoc & Hci).
  split; [done|]. split; [done|].
  split; [by rewrite (inv_inserts _ _ _ _ Hinv), total_records_entries|].
  intros done e rest Hsplit.
  rewrite total_records_entries in Hfuel. unfold len in Hfuel.
  rewrite Hsplit, length_app in Hfuel. cbn [length] in Hfuel.
  destruct (build_init_Ok self pages HFR') as (s0 & Hinit & HNB0 & _ & Hinv0).
  destruct (build_entries_Ok (fr self) (nb s0) fuel HFR' HNB0 done s0)
    as (s & Hdone & Hinvs); [lia|done|].
  destruct (build_entry_step (fr self) (nb s0) fuel HFR' HNB0 done s e)
    as (s1 & Hstep & _ & Hcount); [lia|done|].
  exists s, s1. rewrite Hinit. cbn. done.
Qed.

(** FR = 1 and the keys "a" and "d", which fall into the same bucket
    of the three: the second insertion is a collision and an overflow. *)
Lemma build_counters_witness :
  let self := {| fr := 1; nb := 0; buckets := [];
                 inserts := 0; collision_inserts := 0; overflow_inserts := 0 |} in
  let pages := [mkPage 0 [py_str "a"; py_str "d"]] in
  ∃ idx,
    build 3 self pages = Ok idx
    ∧ overflow_inserts idx ≤ collision_inserts idx
    ∧ collision_inserts idx ≤ inserts idx
    ∧ inserts idx = total_records pages
    ∧ ∀ done e rest,
        entries pages = done ++ e :: rest →
        ∃ s s1,
          (s0 ← build_init self pages; for_each (build_entry 3) done s0) = Ok s
          ∧ build_entry 3 s e = Ok s1
          ∧ (overflow_inserts s1 = overflow_inserts s
             ∨ (overflow_inserts s1 = overflow_inserts s + 1
                ∧ collision_inserts s1 = collision_inserts s + 1)).
Proof.
  apply (build_counters 3
           {| fr := 1; nb := 0; buckets := [];
              inserts := 0; collision_inserts := 0; overflow_inserts := 0 |}
           [mkPage 0 [py_str "a"; py_str "d"]]).
  - vm_compute. discriminate.
  - vm_compute. reflexivity.
Defined.

Example build_collision_and_overflow :
  (idx ← build 3 {| fr := 1; nb := 0; buckets := [];
                    inserts := 0; collision_inserts := 0; overflow_inserts := 0 |}
           [mkPage 0 [py_str "a"; py_str "d"]];
   Ok (nb idx, inserts idx, collision_inserts idx, overflow_inserts idx,
       map chain_nodes (buckets idx)))
  = Ok (3, 2, 1, 1,
        [[(1, [])];
         [(1, [(py_str "a", 0)]); (1, [(py_str "d", 0)])];
         [(1, [])]]).
Proof. vm_compute. reflexivity. Qed.

(** What one iteration changes, whenever it completes. *)
Lemma build_record_Ok (fuel : nat) (pid : Z) (s s1 : HashIndex) (key : str) :
  build_record fuel pid s key = Ok s1 →
  fr s1 = fr s ∧ nb s1 = nb s
  ∧ inserts s1 = inserts s + 1
  ∧ (collision_inserts s1 = collision_inserts s
     ∨ collision_inserts s1 = collision_inserts s + 1)
  ∧ (overflow_inserts s1 = overflow_inserts s
     ∨ overflow_inserts s1 = overflow_inserts s + 1).
Proof.
  unfold build_record. intros H.
  inv_bind H as b Hhash. inv_bind H as [pos primary] Hget.
  inv_bind H as [primary' went] Hins. injection H as <-. cbn.
  repeat split; try done.
  - destruct (0 <? len (items primary)); auto.
  - destruct went; auto.
Qed.

Lemma build_preserves (I : HashIndex → Prop) (fuel : nat)
    (self idx : HashIndex) (pages : list Page) :
  (∀ s0, build_init self pages = Ok s0 → I s0) →
  (∀ pid s key s1, I s → build_record fuel pid s key = Ok s1 → I s1) →
  build fuel self pages = Ok idx → I idx.
Proof.
  intros Hinit Hstep Hrun. unfold build in Hrun. inv_bind Hrun as s0 Hs0.
  apply (for_each_preserves I (build_page fuel) pages s0 idx); [by apply Hinit| |done].
  intros s p s1 Hs Hpage. unfold build_page in Hpage.
  apply (for_each_preserves I (build_record fuel (page_id p)) (records p) s s1);
    [done| |done].
  intros. by eapply Hstep.
Qed.

Lemma build_init_inv (self s0 : HashIndex) (pages : list Page) :
  build_init self pages = Ok s0 →
  fr s0 = fr self ∧ inserts s0 = 0
  ∧ collision_inserts s0 = 0 ∧ overflow_inserts s0 = 0.
Proof.
  unfold build_init. intros H. inv_bind H as c Hc. by injection H as <-.
Qed.

Lemma rate_bounds (part total : Z) :
  0 ≤ part → part ≤ total →
  let r := if total =? 0 then 0%Q
           else (inject_Z part / inject_Z total * 100)%Q in
  (0 <= r)%Q ∧ (r <= 100)%Q.
Proof.
  intros Hp Ht. cbv zeta.
  destruct (Z.eqb_spec total 0) as [_|Hne]; [done|].
  destruct total as [|t|t]; try lia.
  unfold Qle, Qdiv, Qmult, Qinv, inject_Z. cbn. split; lia.
Qed.

(** C9.  After any completed [build], the collision and overflow
    counters lie between 0 and the insertion counter, both rates lie in
    [0, 100], and both rates are 0 when nothing was inserted. *)
Theorem build_rates (fuel : nat) (self idx : HashIndex) (pages : list Page) :
  build fuel self pages = Ok idx →
  (0 ≤ collision_inserts idx ∧ collision_inserts idx ≤ inserts idx)
  ∧ (0 ≤ overflow_inserts idx ∧ overflow_inserts idx ≤ inserts idx)
  ∧ (0 <= collision_rate idx)%Q ∧ (collision_rate idx <= 100)%Q
  ∧ (0 <= overflow_rate idx)%Q ∧ (overflow_rate idx <= 100)%Q
  ∧ (inserts idx = 0 → collision_rate idx = 0%Q ∧ overflow_rate idx = 0%Q).
Proof.
  intros Hrun.
  assert ((0 ≤ collision_inserts idx ∧ collision_inserts idx ≤ inserts idx)
          ∧ (0 ≤ overflow_inserts idx ∧ overflow_inserts idx ≤ inserts idx))
    as [[Hc0 Hc] [Ho0 Ho]].
  { apply (build_preserves
             (λ s, (0 ≤ collision_inserts s ∧ collision_inserts s ≤ inserts s)
                   ∧ (0 ≤ overflow_inserts s ∧ overflow_inserts s ≤ inserts s))
             fuel self idx pages); [| |done].
    - intros s0 (_ & -> & -> & ->)%build_init_inv. lia.
    - intros pid s key s1 Hs (_ & _ & -> & Hcol & Hov)%build_record_Ok. lia. }
  destruct (rate_bounds _ _ Hc0 Hc) as [? ?].
  destruct (rate_bounds _ _ Ho0 Ho) as [? ?].
  do 6 (split; [done|]).
  intros Hzero. unfold collision_rate, overflow_rate.
  by rewrite Hzero.
Qed.

Lemma build_rates_witness :
  ∃ idx,
    build 3 {| fr := 1; nb := 0; buckets := [];
               inserts := 0; collision_inserts := 0; overflow_inserts := 0 |}
      [mkPage 0 [py_str "a"; py_str "d"]] = Ok idx
    ∧ (0 ≤ collision_inserts idx ∧ collision_inserts idx ≤ inserts idx)
    ∧ (0 ≤ overflow_inserts idx ∧ overflow_inserts idx ≤ inserts idx)
    ∧ (0 <= collision_rate idx)%Q ∧ (collision_rate idx <= 100)%Q
    ∧ (0 <= overflow_rate idx)%Q ∧ (overflow_rate idx <= 100)%Q
    ∧ (inserts idx = 0 → collision_rate idx = 0%Q ∧ overflow_rate idx = 0%Q).
Proof.
  eexists. split; [vm_compute; reflexivity|].
  apply (build_rates 3
           {| fr := 1; nb := 0; buckets := [];
              inserts := 0; collision_inserts := 0; overflow_inserts := 0 |}
           _ [mkPage 0 [py_str "a"; py_str "d"]]).
  vm_compute. reflexivity.
Defined.

Example rates_of_two_keys :
  (idx ← build 3 {| fr := 1; nb := 0; buckets := [];
                    inserts := 0; collision_inserts := 0; overflow_inserts := 0 |}
           [mkPage 0 [py_str "a"; py_str "d"]];
   Ok (collision_rate idx, overflow_rate idx))
  = Ok ((100 # 2)%Q, (100 # 2)%Q).
Proof. vm_compute. reflexivity. Qed.

(** *** Before any build *)

Lemma find_page_no_buckets (self : HashIndex) (key : str) :
  buckets self = [] → find_page self key = Ok None.
Proof. intros H. unfold find_page. by rewrite H. Qed.

(** C8.  On an index that was constructed and never built, which has no
    bucket and NB = 0, [find_page] returns not-found for every key and
    raises nothing. *)
Theorem find_page_before_build (fr0 : Z) (key : str) :
  ∃ idx,
    HashIndex_init fr0 = Ok idx
    ∧ nb idx = 0 ∧ buckets idx = []
    ∧ find_page idx key = Ok None.
Proof. eexists. split; [done|]. cbn. done. Qed.

(** *** Configuration *)

Lemma build_fr_zero (fuel : nat) (self : HashIndex) (pages : list Page) :
  fr self = 0 → build fuel self pages = Raise ZeroDivisionError.
Proof. intros H. unfold build, build_init, py_ceil_div. by rewrite H. Qed.

Lemma entries_nil (pages : list Page) :
  total_records pages = 0 → entries pages = [].
Proof.
  rewrite total_records_entries. unfold len.
  destruct (entries pages); [done|cbn; lia].
Qed.

Lemma build_fr_neg_empty (fuel : nat) (self : HashIndex) (pages : list Page) :
  fr self < 0 → total_records pages = 0 →
  build fuel self pages =
    Ok {| fr := fr self; nb := 1; buckets := [BucketNode_init (fr self)];
          inserts := 0; collision_inserts := 0; overflow_inserts := 0 |}.
Proof.
  intros HFR Hnr. unfold build, build_init. rewrite Hnr.
  destruct (py_ceil_div_neg 0 (fr self) ltac:(lia) HFR) as (c & Hc & _ & Hzero).
  rewrite Hc, (Hzero eq_refl). cbn.
  by rewrite build_pages_entries, entries_nil by done.
Qed.

Lemma build_fr_neg_nonempty (fuel : nat) (self : HashIndex) (pages : list Page) :
  fr self < 0 → total_records pages ≠ 0 →
  ∀ idx, build fuel self pages ≠ Ok idx.
Proof.
  intros HFR Hnr idx Hrun.
  pose proof (total_records_nonneg pages) as Hnr0.
  unfold build, build_init in Hrun.
  destruct (py_ceil_div_neg (total_records pages) (fr self) Hnr0 HFR)
    as (c0 & Hc & Hcle & _).
  rewrite Hc in Hrun. cbn in Hrun.
  rewrite build_pages_entries in Hrun.
  destruct (entries pages) as [|[k pid] rest] eqn:Hes.
  { rewrite total_records_entries, Hes in Hnr. done. }
  cbn [for_each] in Hrun. inv_bind Hrun as s1 Hstep. clear Hrun.
  set (NB := c0 + 1) in *.
  assert (NB ≤ 1) as HNB by lia.
  unfold build_entry, build_record in Hstep.
  cbn [fst snd nb buckets] in Hstep.
  inv_bind Hstep as b Hhash. unfold hash_fn, py_mod in Hhash.
  destruct (Z.eqb_spec NB 0) as [?|HNB0]; [done|]. injection Hhash as <-.
  inv_bind Hstep as [pos primary] Hget.
  destruct (decide (NB = 1)) as [HNB1|HNB1].
  - rewrite HNB1 in *. rewrite Z.mod_1_r in Hget. cbn in Hget.
    injection Hget as <- <-.
    inv_bind Hstep as [primary' went] Hins.
    unfold insert in Hins. rewrite insert_loop_nonpos in Hins; [done|cbn; lia|].
    intros c its Hin. cbn in Hin. apply list_elem_of_singleton in Hin.
    injection Hin as -> _. lia.
  - apply py_getitem_Ok in Hget. unfold py_range in Hget.
    replace (Z.to_nat NB) with 0%nat in Hget by lia. done.
Qed.

(** C3, as the code has it.  The constructor accepts every FR, positive
    or not, and stores it unchanged; no later [build] changes it.
    FR = 0 is refused only inside [build], which raises
    ZeroDivisionError on every page list.  FR < 0 is not refused as
    such: [build] completes, with one bucket, on a store without
    records, and never completes on a store that has records. *)
Theorem HashIndex_init_accepts_any_fr (fr0 : Z) :
  ∃ idx,
    HashIndex_init fr0 = Ok idx
    ∧ fr idx = fr0
    ∧ ∀ (fuel : nat) (pages : list Page),
        (∀ idx', build fuel idx pages = Ok idx' → fr idx' = fr0)
        ∧ (fr0 = 0 → build fuel idx pages = Raise ZeroDivisionError)
        ∧ (fr0 < 0 → total_records pages = 0 →
           ∃ idx', build fuel idx pages = Ok idx' ∧ nb idx' = 1)
        ∧ (fr0 < 0 → total_records pages ≠ 0 →
           ∀ idx', build fuel idx pages ≠ Ok idx').
Proof.
  eexists. split; [done|]. cbn [fr]. split; [done|].
  intros fuel pages. split; [|split; [|split]].
  - intros idx' Hrun.
    refine (build_preserves (λ s, fr s = fr0) fuel _ idx' pages _ _ Hrun).
    + by intros s0 (-> & _)%build_init_inv.
    + intros pid s key s1 Hs (-> & _)%build_record_Ok. done.
  - intros ->. by apply build_fr_zero.
  - intros Hneg Hnr. eexists. split; [by apply build_fr_neg_empty|done].
  - intros Hneg Hnr. by apply build_fr_neg_nonempty.
Qed.

(** Rejection at construction fails at FR = 0 and at FR = -1: the
    constructor returns an index for both; with FR = 0 the error comes
    only once [build] runs, and with FR = -1 an empty store is even
    built. *)
Lemma HashIndex_init_does_not_reject :
  ¬ (∀ fr0, fr0 ≤ 0 → ∃ e, HashIndex_init fr0 = Raise e)
  ∧ HashIndex_init 0 =
      Ok {| fr := 0; nb := 0; buckets := [];
            inserts := 0; collision_inserts := 0; overflow_inserts := 0 |}
  ∧ (idx ← HashIndex_init 0; build 1 idx []) = Raise ZeroDivisionError
  ∧ HashIndex_init (-1) =
      Ok {| fr := -1; nb := 0; buckets := [];
            inserts := 0; collision_inserts := 0; overflow_inserts := 0 |}
  ∧ (idx ← HashIndex_init (-1); build 1 idx []) =
      Ok {| fr := -1; nb := 1; buckets := [BucketNode_init (-1)];
            inserts := 0; collision_inserts := 0; overflow_inserts := 0 |}.
Proof.
  split; [|repeat split].
  intros Hrej. destruct (Hrej 0) as [e He]; [lia|]. discriminate He.
Qed.

Example build_negative_fr :
  let pages := [mkPage 0 [py_str "a"; py_str "b"; py_str "c"]] in
  (idx ← HashIndex_init (-1); build 9 idx pages) = Raise IndexError
  ∧ (idx ← HashIndex_init (-3); build 9 idx pages) = Raise ZeroDivisionError
  ∧ (idx ← HashIndex_init (-4); build 9 idx pages) = OutOfFuel.
Proof. repeat split. Qed.

End Index.

(** ** Paging *)

Section MakePages.

Lemma py_range3_up (stop step : Z) :
  0 < step →
  py_range3 0 stop step =
    Some (map (λ k : nat, Z.of_nat k * step)
            (seq 0 (Z.to_nat ((stop + step - 1) / step)))).
Proof.
  intros Hstep. unfold py_range3.
  destruct (Z.eqb_spec step 0) as [?|_]; [lia|].
  destruct (Z.ltb_spec 0 step) as [_|?]; [|lia].
  by rewrite Z.sub_0_r.
Qed.

Lemma py_slice_chunk {A : Type} (l : list A) (i n : Z) :
  0 ≤ i → 0 < n →
  py_slice l i (i + n) = take (Z.to_nat n) (drop (Z.to_nat i) l).
Proof.
  intros Hi Hn. unfold py_slice, py_slice_bound, len.
  destruct (Z.ltb_spec i 0) as [?|_]; [lia|].
  destruct (Z.ltb_spec (i + n) 0) as [?|_]; [lia|].
  destruct (decide (Z.of_nat (length l) ≤ i)) as [Hout|Hin].
  - rewrite !Z.min_r by lia. rewrite Z.sub_diag.
    rewrite (drop_ge l (Z.to_nat i)) by lia. by rewrite take_nil.
  - rewrite (Z.min_l i) by lia.
    destruct (decide (i + n ≤ Z.of_nat (length l))) as [Hfit|Hcut].
    + rewrite Z.min_l by lia. f_equal. lia.
    + rewrite Z.min_r by lia.
      rewrite !take_ge; [done| |]; rewrite length_drop; lia.
Qed.

(** The loop of [make_pages] over the starts [a * m, (a + 1) * m, ...]. *)
Lemma make_pages_loop (words : list str) (m : Z) (n : nat) :
  0 < m →
  ∀ (a : nat) (acc : list Page),
    fold_left
      (λ (st : list Page * Z) (i : Z),
         (st.1 ++ [mkPage st.2 (py_slice words i (i + m))], st.2 + 1))
      (map (λ k : nat, Z.of_nat k * m) (seq a n)) (acc, Z.of_nat a)
    = (acc ++ map (λ k : nat,
                     mkPage (Z.of_nat k)
                       (take (Z.to_nat m) (drop (k * Z.to_nat m) words)))
                (seq a n),
       Z.of_nat (a + n)).
Proof.
  intros Hm. induction n as [|n IH]; intros a acc; cbn [seq map fold_left].
  - rewrite app_nil_r. do 2 f_equal. lia.
  - cbn [fst snd]. replace (Z.of_nat a + 1) with (Z.of_nat (S a)) by lia.
    rewrite IH. rewrite <- app_assoc. cbn [app].
    rewrite py_slice_chunk by lia.
    rewrite Z2Nat.inj_mul, Nat2Z.id by lia.
    f_equal. lia.
Qed.

Lemma make_pages_chunks (words : list str) (page_size : Z) :
  0 < page_size →
  make_pages words page_size =
    Some (map (λ k : nat,
                 mkPage (Z.of_nat k)
                   (take (Z.to_nat page_size)
                      (drop (k * Z.to_nat page_size) words)))
            (seq 0 (Z.to_nat ((len words + page_size - 1) / page_size)))).
Proof.
  intros Hps. unfold make_pages. rewrite py_range3_up by done. cbn.
  by rewrite (make_pages_loop words page_size _ Hps 0 []).
Qed.

(** The number of pages is the ceiling of the number of words over the
    page size. *)
Lemma page_count_bounds (n m : Z) :
  0 ≤ n → 0 < m →
  let q := (n + m - 1) / m in
  0 ≤ q ∧ n ≤ m * q ∧ m * q < n + m.
Proof.
  intros Hn Hm q. subst q.
  pose proof (Z.div_mod (n + m - 1) m ltac:(lia)) as Hdm.
  pose proof (Z.mod_pos_bound (n + m - 1) m Hm) as Hr.
  assert (0 ≤ (n + m - 1) / m) by (apply Z.div_pos; lia).
  lia.
Qed.

Lemma chunks_concat {A : Type} (l : list A) (m n : nat) :
  concat (map (λ k : nat, take m (drop (k * m) l)) (seq 0 n)) = take (n * m) l.
Proof.
  induction n as [|n IH]; [done|].
  rewrite seq_S, map_app, concat_app, IH. cbn [map concat].
  rewrite app_nil_r, take_take_drop. f_equal. lia.
Qed.

Lemma entries_length (pages : list Page) :
  length (entries pages) = length (concat (map records pages)).
Proof.
  unfold entries. induction pages as [|p pages IH]; [done|].
  cbn [map concat]. rewrite !length_app, IH. unfold page_entries.
  by rewrite length_map.
Qed.

(** X1.  For a positive page size [make_pages] returns pages whose
    records, concatenated in page order, are the input words: no word is
    lost, duplicated or moved, and the pages hold as many records as there
    are words. *)
Theorem make_pages_round_trip (words : list str) (page_size : Z) :
  0 < page_size →
  ∃ pages,
    make_pages words page_size = Some pages
    ∧ concat (map records pages) = words
    ∧ total_records pages = len words.
Proof.
  intros Hps. rewrite make_pages_chunks by done.
  eexists. split; [done|].
  set (m := Z.to_nat page_size).
  set (n := Z.to_nat ((len words + page_size - 1) / page_size)).
  assert (concat (map records
            (map (λ k : nat, mkPage (Z.of_nat k) (take m (drop (k * m) words)))
               (seq 0 n))) = words) as Hcat.
  { rewrite map_map. cbn [records]. rewrite chunks_concat.
    apply take_ge. subst n m.
    destruct (page_count_bounds (len words) page_size) as (Hq & Hle & _);
      [unfold len; lia|done|].
    unfold len in *. nia. }
  split; [done|].
  rewrite total_records_entries. unfold len.
  by rewrite entries_length, Hcat.
Qed.

Lemma make_pages_round_trip_witness :
  let words := [py_str "apple"; py_str "banana"; py_str "cherry"; py_str "date";
                py_str "egg"; py_str "fig"; py_str "grape"] in
  ∃ pages,
    make_pages words 3 = Some pages
    ∧ concat (map records pages) = words
    ∧ total_records pages = len words.
Proof.
  apply (make_pages_round_trip
           [py_str "apple"; py_str "banana"; py_str "cherry"; py_str "date";
            py_str "egg"; py_str "fig"; py_str "grape"] 3).
  reflexivity.
Defined.

(** X2.  For a positive page size the pages of [make_pages] are numbered
    0, 1, 2, ... in order; page [i] holds the words from position
    [i * page_size] on, [page_size] of them except that the last page
    holds what is left (at least one word); and the number of pages is
    the number of words divided by the page size, rounded up. *)
Theorem make_pages_layout (words : list str) (page_size : Z) (pages : list Page) :
  0 < page_size →
  make_pages words page_size = Some pages →
  (len words ≤ page_size * len pages ∧ page_size * len pages < len words + page_size)
  ∧ ∀ (i : nat) (p : Page),
      pages !! i = Some p →
      page_id p = Z.of_nat i
      ∧ records p = take (Z.to_nat page_size) (drop (i * Z.to_nat page_size) words)
      ∧ (1 ≤ len (records p) ∧ len (records p) ≤ page_size)
      ∧ ((S i < length pages)%nat → len (records p) = page_size).
Proof.
  intros Hps Hrun. rewrite make_pages_chunks in Hrun by done.
  injection Hrun as <-.
  destruct (page_count_bounds (len words) page_size) as (Hq & Hle & Hlt);
    [unfold len; lia|done|].
  set (q := (len words + page_size - 1) / page_size) in *.
  assert (len (map (λ k : nat,
                      mkPage (Z.of_nat k)
                        (take (Z.to_nat page_size)
                           (drop (k * Z.to_nat page_size) words)))
                 (seq 0 (Z.to_nat q))) = q) as Hlen.
  { unfold len. rewrite length_map, length_seq. lia. }
  rewrite Hlen. split; [done|].
  intros i p Hi.
  change (map ?f ?l) with (f <$> l) in Hi.
  rewrite list_lookup_fmap in Hi.
  destruct (seq 0 (Z.to_nat q) !! i) as [k|] eqn:Hk; [|done].
  apply lookup_seq in Hk as [-> Hiq]. cbn in Hi. injection Hi as <-.
  cbn [page_id records]. split; [done|]. split; [done|].
  rewrite length_map, length_seq.
  unfold len in *. rewrite length_take, length_drop.
  assert (Z.of_nat (i * Z.to_nat page_size) = Z.of_nat i * page_size) as Him
    by (rewrite Nat2Z.inj_mul; lia).
  assert (Z.of_nat i + 1 ≤ q) by lia.
  split; [split; nia|].
  intros Hnext. assert (Z.of_nat i + 2 ≤ q) by lia. nia.
Qed.

Lemma make_pages_layout_witness :
  let words := [py_str "apple"; py_str "banana"; py_str "cherry"; py_str "date";
                py_str "egg"; py_str "fig"; py_str "grape"] in
  ∃ pages,
    make_pages words 3 = Some pages
    ∧ (len words ≤ 3 * len pages ∧ 3 * len pages < len words + 3)
    ∧ ∀ (i : nat) (p : Page),
        pages !! i = Some p →
        page_id p = Z.of_nat i
        ∧ records p = take (Z.to_nat 3) (drop (i * Z.to_nat 3) words)
        ∧ (1 ≤ len (records p) ∧ len (records p) ≤ 3)
        ∧ ((S i < length pages)%nat → len (records p) = 3).
Proof.
  eexists. split; [vm_compute; reflexivity|].
  apply (make_pages_layout
           [py_str "apple"; py_str "banana"; py_str "cherry"; py_str "date";
            py_str "egg"; py_str "fig"; py_str "grape"] 3).
  - reflexivity.
  - vm_compute. reflexivity.
Defined.

Example make_pages_seven_words :
  (pages ← make_pages [py_str "apple"; py_str "banana"; py_str "cherry";
                       py_str "date"; py_str "egg"; py_str "fig"; py_str "grape"] 3;
   Some (map (λ p, (page_id p, len (records p))) pages))
  = Some [(0, 3); (1, 3); (2, 1)].
Proof. vm_compute. reflexivity. Qed.

(** X3.  [make_pages] does not check the page size: a page size of 0
    makes [range] raise ValueError, and a negative page size makes the
    loop run over nothing, so that no page is returned and every word is
    dropped without an error. *)
Theorem make_pages_nonpositive_size (words : list str) (page_size : Z) :
  page_size ≤ 0 →
  make_pages words page_size = if page_size =? 0 then None else Some [].
Proof.
  intros Hps. unfold make_pages, py_range3.
  destruct (Z.eqb_spec page_size 0) as [?|Hne]; [done|].
  destruct (Z.ltb_spec 0 page_size) as [?|_]; [lia|].
  rewrite Z.sub_0_l.
  assert ((- len words - page_size - 1) / - page_size ≤ 0) as Hn.
  { assert ((- len words - page_size - 1) / - page_size < 1); [|lia].
    apply Z.div_lt_upper_bound; unfold len; lia. }
  replace (Z.to_nat ((- len words - page_size - 1) / - page_size)) with 0%nat by lia.
  done.
Qed.

Lemma make_pages_nonpositive_size_witness :
  make_pages [py_str "a"; py_str "b"; py_str "c"] (-2) =
    (if -2 =? 0 then None else Some []).
Proof.
  apply (make_pages_nonpositive_size [py_str "a"; py_str "b"; py_str "c"] (-2)).
  lia.
Defined.

End MakePages.

(** ** Loading the word list *)

Section LoadWords.

Lemma lstrip_cons (s : str) (c : char) (r : str) :
  lstrip s = c :: r → py_isspace c = false.
Proof.
  induction s as [|x s IH]; cbn; [done|].
  destruct (py_isspace x) eqn:Hx; [done|]. by intros [= <- _].
Qed.

(** [lstrip] removes a prefix of whitespace. *)
Lemma lstrip_suffix (s : str) :
  ∃ pre, s = pre ++ lstrip s ∧ Forall (λ c, py_isspace c = true) pre.
Proof.
  induction s as [|x s (pre & Hs & Hpre)]; cbn.
  - by exists [].
  - destruct (py_isspace x) eqn:Hx.
    + exists (x :: pre). split; [cbn; by rewrite <- Hs|by constructor].
    + by exists [].
Qed.

Lemma lstrip_id (s : str) :
  (∀ c r, s = c :: r → py_isspace c = false) → lstrip s = s.
Proof.
  destruct s as [|c r]; [done|]. intros H. cbn. by rewrite (H c r).
Qed.

Lemma strip_first (s : str) (c : char) (r : str) :
  strip s = c :: r → py_isspace c = false.
Proof.
  unfold strip. intros H.
  destruct (lstrip_suffix (rev (lstrip s))) as (pre & Hsplit & _).
  apply (f_equal (@rev char)) in Hsplit.
  rewrite rev_involutive, rev_app_distr, H in Hsplit. cbn in Hsplit.
  by apply (lstrip_cons s c (r ++ rev pre)).
Qed.

Lemma strip_last (s : str) (r : str) (c : char) :
  strip s = r ++ [c] → py_isspace c = false.
Proof.
  unfold strip. intros H. apply (f_equal (@rev char)) in H.
  rewrite rev_involutive, rev_app_distr in H. cbn in H.
  by apply (lstrip_cons _ _ _ H).
Qed.

Lemma strip_id (w : str) :
  (∀ c r, w = c :: r → py_isspace c = false) →
  (∀ r c, w = r ++ [c] → py_isspace c = false) →
  strip w = w.
Proof.
  intros Hfirst Hlast. unfold strip. rewrite (lstrip_id w Hfirst).
  rewrite lstrip_id; [apply rev_involutive|].
  intros c r Hrev. apply (Hlast (rev r) c).
  apply (f_equal (@rev char)) in Hrev. rewrite rev_involutive in Hrev.
  by rewrite Hrev.
Qed.

Lemma load_words_txt_loop (lines : list str) :
  ∀ acc,
    fold_left
      (λ words line,
         match strip line with
         | [] => words
         | _ :: _ => words ++ [strip line]
         end) lines acc
    = acc ++ filter (λ w, w ≠ []) (strip <$> lines).
Proof.
  induction lines as [|line lines IH]; intros acc; cbn [fold_left fmap list_fmap].
  - by rewrite app_nil_r.
  - rewrite IH. destruct (strip line) as [|c r] eqn:Hw.
    + by rewrite filter_cons_False by (by intros ?).
    + rewrite filter_cons_True by done. by rewrite <- app_assoc.
Qed.

Lemma load_words_txt_filter (lines : list str) :
  load_words_txt lines = filter (λ w, w ≠ []) (strip <$> lines).
Proof. unfold load_words_txt. by rewrite load_words_txt_loop. Qed.

Lemma clean_words_kept (ws : list str) :
  Forall (λ w, strip w = w ∧ w ≠ []) ws →
  filter (λ w, w ≠ []) (strip <$> ws) = ws.
Proof.
  induction 1 as [|w ws [Hw Hne] _ IH]; [done|].
  cbn [fmap list_fmap]. rewrite Hw, filter_cons_True by done.
  f_equal. apply IH.
Qed.

(** X4.  Every word that [load_words_txt] returns is a line of the file
    with the whitespace at its two ends removed; it is not empty, and it
    neither starts nor ends with a whitespace character. *)
Theorem load_words_txt_clean (lines : list str) (w : str) :
  w ∈ load_words_txt lines →
  (∃ line, line ∈ lines ∧ w = strip line)
  ∧ w ≠ []
  ∧ (∀ c r, w = c :: r → py_isspace c = false)
  ∧ (∀ r c, w = r ++ [c] → py_isspace c = false).
Proof.
  rewrite load_words_txt_filter. intros [Hne Hin]%list_elem_of_filter.
  apply list_elem_of_fmap in Hin as (line & -> & Hline).
  split; [by exists line|]. split; [done|]. split.
  - intros c r. apply strip_first.
  - intros r c. apply strip_last.
Qed.

Lemma load_words_txt_clean_witness :
  let lines := [py_str "  apple "; py_str ""; py_str "fig"] in
  (∃ line, line ∈ lines ∧ py_str "apple" = strip line)
  ∧ py_str "apple" ≠ []
  ∧ (∀ c r, py_str "apple" = c :: r → py_isspace c = false)
  ∧ (∀ r c, py_str "apple" = r ++ [c] → py_isspace c = false).
Proof.
  apply (load_words_txt_clean [py_str "  apple "; py_str ""; py_str "fig"]
           (py_str "apple")).
  vm_compute. left.
Defined.

(** X5.  [load_words_txt] keeps the order of the lines, drops the lines
    that hold only whitespace, and leaves alone what is already clean:
    applied to its own result it returns it unchanged. *)
Theorem load_words_txt_idempotent (lines : list str) :
  load_words_txt (load_words_txt lines) = load_words_txt lines
  ∧ load_words_txt lines = filter (λ w, w ≠ []) (strip <$> lines).
Proof.
  split; [|apply load_words_txt_filter].
  rewrite (load_words_txt_filter (load_words_txt lines)).
  assert (Forall (λ w, strip w = w ∧ w ≠ []) (load_words_txt lines)) as Hclean.
  { apply Forall_forall. intros w Hw. rewrite load_words_txt_filter in Hw.
    apply list_elem_of_filter in Hw as [Hne Hin].
    apply list_elem_of_fmap in Hin as (line & -> & _).
    split; [|done]. apply strip_id; [apply strip_first|apply strip_last]. }
  by apply clean_words_kept.
Qed.

Example load_words_txt_lines :
  load_words_txt [py_str "  apple "; py_str ""; py_str "   "; py_str "fig"]
  = [py_str "apple"; py_str "fig"].
Proof. vm_compute. reflexivity. Qed.

End LoadWords.

(** ** Bucket chains: contents and lookup *)

Section ChainContents.

Variable cap : Z.
Hypothesis cap_pos : 0 < cap.

Lemma place_nonempty (e : entry) (ns : list (Z * list entry)) :
  Forall (λ n, n.2 ≠ []) ns → Forall (λ n, n.2 ≠ []) (place cap ns e).
Proof.
  induction 1 as [|[c its] rest Hits Hrest IH]; cbn [place].
  - by repeat constructor.
  - destruct (len its <? c).
    + constructor; [|done]. cbn. by destruct its.
    + by constructor.
Qed.

Lemma place_tail_nonempty (e : entry) (ns : list (Z * list entry)) :
  ns ≠ [] →
  Forall (λ n, n.2 ≠ []) (tail ns) →
  Forall (λ n, n.2 ≠ []) (tail (place cap ns e)).
Proof.
  destruct ns as [|[c its] rest]; [done|]. intros _ Hrest. cbn in *.
  destruct (len its <? c); cbn; [done|]. by apply place_nonempty.
Qed.

Lemma place_not_nil (e : entry) (ns : list (Z * list entry)) :
  place cap ns e ≠ [].
Proof. destruct ns as [|[c its] rest]; cbn; [done|]. by destruct (len its <? c). Qed.

(** Node [i] of a chain that is full but for its last node holds the
    entries [i * cap, (i + 1) * cap) of the chain. *)
Lemma full_but_last_slice (ns : list (Z * list entry)) :
  full_but_last cap ns →
  ∀ i c its, ns !! i = Some (c, its) →
    its = take (Z.to_nat cap) (drop (i * Z.to_nat cap) (concat (map snd ns))).
Proof.
  induction ns as [|[c0 its0] rest IH]; [done|].
  intros (-> & Hits & Hrest) i c its Hlook. cbn [map concat snd].
  destruct i as [|i]; cbn in Hlook.
  - injection Hlook as <- <-. rewrite Nat.mul_0_l, drop_0.
    destruct rest as [|n rest].
    + cbn. rewrite app_nil_r. symmetry. apply take_ge. unfold len in Hits. lia.
    + symmetry. apply take_app_length'. unfold len in Hits. lia.
  - assert (length its0 = Z.to_nat cap) as Hfull.
    { destruct rest as [|n rest]; [done|]. unfold len in Hits. lia. }
    rewrite drop_app_ge by (rewrite Hfull; lia).
    replace (S i * Z.to_nat cap - length its0)%nat with (i * Z.to_nat cap)%nat
      by (rewrite Hfull; lia).
    by apply (IH Hrest i c its).
Qed.

Lemma full_but_last_total (ns : list (Z * list entry)) :
  full_but_last cap ns → Forall (λ n, n.2 ≠ []) ns → ns ≠ [] →
  cap * (len ns - 1) < len (concat (map snd ns))
  ∧ len (concat (map snd ns)) ≤ cap * len ns.
Proof.
  unfold len.
  induction ns as [|[c its] rest IH]; [done|].
  intros (-> & Hits & Hrest) Hne _. inversion Hne as [|? ? Hits0 Hne']; subst.
  cbn [map concat snd length] in *. rewrite length_app.
  destruct rest as [|n rest].
  - cbn. unfold len in Hits. destruct its; [done|]. cbn [length] in *. lia.
  - destruct (IH Hrest Hne' ltac:(done)) as [Hlo Hhi].
    unfold len in Hits. cbn [length] in *. nia.
Qed.

Lemma insert_seq_Ok (fuel : nat) (es : list entry) :
  (length es < fuel)%nat →
  ∃ s : BucketNode,
    insert_seq fuel (BucketNode_init cap) es = Ok s
    ∧ full_but_last cap (chain_nodes s)
    ∧ chain_items s = es
    ∧ Forall (λ n, n.2 ≠ []) (tail (chain_nodes s))
    ∧ (length (chain_nodes s) ≤ S (length es))%nat.
Proof.
  induction es as [|e es IH] using rev_ind; intros Hfuel.
  - exists (BucketNode_init cap). split; [done|]. split.
    { cbn. unfold len. cbn. lia. }
    split; [done|]. split; [by constructor|cbn; lia].
  - rewrite length_app in Hfuel. cbn in Hfuel.
    destruct IH as (s & Hrun & Hshape & Hitems & Htail & Hlen); [lia|].
    destruct (insert_full_but_last cap cap_pos fuel s e.1 e.2 Hshape)
      as (s2 & Hins & Hnodes); [lia|].
    rewrite <- surjective_pairing in Hnodes.
    exists s2. rewrite insert_seq_snoc, Hrun. cbn. rewrite Hins. cbn.
    split; [done|]. rewrite Hnodes.
    split; [by apply full_but_last_place|].
    split.
    { unfold chain_items in *. rewrite Hnodes, (place_items cap) by done.
      by rewrite Hitems. }
    split.
    + apply place_tail_nonempty; [|done].
      pose proof (chain_nodes_length_pos s) as Hpos.
      intros Hnil. rewrite Hnil in Hpos. cbn in Hpos. lia.
    + pose proof (place_length cap e (chain_nodes s)). rewrite length_app. cbn. lia.
Qed.

End ChainContents.

Section ChainLookup.

Lemma find_items_first (es : list entry) (key : str) :
  ∀ (i : nat) (pid : Z),
    es !! i = Some (key, pid) →
    (∀ j pid', (j < i)%nat → es !! j ≠ Some (key, pid')) →
    find_items es key = Some pid.
Proof.
  induction es as [|[k p] es IH]; intros i pid Hi Hfirst; [done|].
  cbn [find_items]. destruct i as [|i]; cbn in Hi.
  - injection Hi as -> ->. by rewrite decide_True.
  - destruct (decide (k = key)) as [->|Hne].
    + by destruct (Hfirst 0%nat p ltac:(lia)).
    + apply (IH i pid Hi). intros j pid' Hj. apply (Hfirst (S j) pid'). lia.
Qed.

Lemma find_items_none (es : list entry) (key : str) :
  (∀ pid, (key, pid) ∉ es) → find_items es key = None.
Proof.
  induction es as [|[k p] es IH]; intros Habs; [done|]. cbn [find_items].
  destruct (decide (k = key)) as [->|Hne].
  - destruct (Habs p). left.
  - apply IH. intros pid Hin. apply (Habs pid). by right.
Qed.

Lemma find_items_Some_elem (es : list entry) (key : str) (pid : Z) :
  find_items es key = Some pid → (key, pid) ∈ es.
Proof.
  induction es as [|[k p] es IH]; [done|]. cbn [find_items].
  destruct (decide (k = key)) as [->|Hne].
  - intros [= ->]. left.
  - intros H. right. by apply IH.
Qed.

Lemma place_items_split (cap0 : Z) (e : entry) (ns : list (Z * list entry)) :
  ∃ l1 l2,
    concat (map snd ns) = l1 ++ l2
    ∧ concat (map snd (place cap0 ns e)) = l1 ++ e :: l2.
Proof.
  induction ns as [|[c its] rest (l1 & l2 & Hold & Hnew)]; cbn [place].
  - by exists [], [].
  - destruct (len its <? c); cbn [map concat snd].
    + exists its, (concat (map snd rest)). by rewrite <- app_assoc.
    + exists (its ++ l1), l2. by rewrite Hold, Hnew, !app_assoc.
Qed.

(** X6.  After any sequence of insertions into a fresh bucket of positive
    capacity, the chain holds the inserted entries in insertion order,
    cut into nodes of [cap] entries: node [i] holds the entries
    [i * cap, (i + 1) * cap), and there are as many nodes as the number of
    entries divided by [cap], rounded up (one node when nothing was
    inserted). *)
Theorem insert_seq_chunks (cap : Z) (fuel : nat) (es : list entry) :
  0 < cap →
  (length es < fuel)%nat →
  ∃ s : BucketNode,
    insert_seq fuel (BucketNode_init cap) es = Ok s
    ∧ chain_items s = es
    ∧ (∀ i c its, chain_nodes s !! i = Some (c, its) →
         its = take (Z.to_nat cap) (drop (i * Z.to_nat cap) es))
    ∧ 1 ≤ len (chain_nodes s)
    ∧ len es ≤ cap * len (chain_nodes s)
    ∧ (1 < len (chain_nodes s) → cap * (len (chain_nodes s) - 1) < len es).
Proof.
  intros Hcap Hfuel.
  destruct (insert_seq_Ok cap Hcap fuel es Hfuel)
    as (s & Hrun & Hshape & Hitems & Htail & _).
  exists s. split; [done|]. split; [done|]. split.
  { intros i c its Hlook. rewrite <- Hitems.
    by apply (full_but_last_slice cap Hcap (chain_nodes s) Hshape i c). }
  unfold chain_items in Hitems. rewrite <- Hitems.
  destruct (chain_nodes s) as [|[c its] rest] eqn:Hns.
  { pose proof (chain_nodes_length_pos s) as Hpos. rewrite Hns in Hpos.
    cbn in Hpos. lia. }
  cbn [tail] in Htail. destruct Hshape as (-> & Hits & Hrest).
  cbn [map concat snd]. unfold len in *. rewrite length_app. cbn [length].
  split; [lia|].
  destruct rest as [|n rest].
  - cbn. split; lia.
  - destruct (full_but_last_total cap Hcap (n :: rest) Hrest Htail ltac:(done))
      as [Hlo Hhi].
    unfold len in *. cbn [length] in *. split; [nia|]. intros _. nia.
Qed.

Lemma insert_seq_chunks_witness :
  let es := [(py_str "a", 0); (py_str "b", 0); (py_str "c", 1);
             (py_str "d", 1); (py_str "e", 2)] in
  ∃ s : BucketNode,
    insert_seq 6 (BucketNode_init 2) es = Ok s
    ∧ chain_items s = es
    ∧ (∀ i c its, chain_nodes s !! i = Some (c, its) →
         its = take (Z.to_nat 2) (drop (i * Z.to_nat 2) es))
    ∧ 1 ≤ len (chain_nodes s)
    ∧ len es ≤ 2 * len (chain_nodes s)
    ∧ (1 < len (chain_nodes s) → 2 * (len (chain_nodes s) - 1) < len es).
Proof.
  apply (insert_seq_chunks 2 6
           [(py_str "a", 0); (py_str "b", 0); (py_str "c", 1);
            (py_str "d", 1); (py_str "e", 2)]).
  - reflexivity.
  - cbn. lia.
Defined.

(** X7.  Lookup after insertions: [find] returns the page id of the first
    entry inserted with the key, however many entries with that key
    followed, and returns not-found for a key that was never inserted. *)
Theorem find_after_insert_seq (cap : Z) (fuel : nat) (es : list entry) :
  0 < cap →
  (length es < fuel)%nat →
  ∃ s : BucketNode,
    insert_seq fuel (BucketNode_init cap) es = Ok s
    ∧ ∀ key : str,
        (∀ (i : nat) (pid : Z),
           es !! i = Some (key, pid) →
           (∀ j pid', (j < i)%nat → es !! j ≠ Some (key, pid')) →
           find s key = Some pid)
        ∧ ((∀ pid, (key, pid) ∉ es) → find s key = None)
        ∧ (∀ pid, find s key = Some pid → (key, pid) ∈ es).
Proof.
  intros Hcap Hfuel.
  destruct (insert_seq_Ok cap Hcap fuel es Hfuel) as (s & Hrun & _ & Hitems & _).
  exists s. split; [done|]. intros key.
  rewrite find_chain_items, Hitems. split; [|split].
  - apply find_items_first.
  - apply find_items_none.
  - apply find_items_Some_elem.
Qed.

Lemma find_after_insert_seq_witness :
  let es := [(py_str "a", 0); (py_str "b", 0); (py_str "a", 1)] in
  ∃ s : BucketNode,
    insert_seq 4 (BucketNode_init 1) es = Ok s
    ∧ ∀ key : str,
        (∀ (i : nat) (pid : Z),
           es !! i = Some (key, pid) →
           (∀ j pid', (j < i)%nat → es !! j ≠ Some (key, pid')) →
           find s key = Some pid)
        ∧ ((∀ pid, (key, pid) ∉ es) → find s key = None)
        ∧ (∀ pid, find s key = Some pid → (key, pid) ∈ es).
Proof.
  apply (find_after_insert_seq 1 4
           [(py_str "a", 0); (py_str "b", 0); (py_str "a", 1)]).
  - reflexivity.
  - cbn. lia.
Defined.

Example find_first_inserted :
  (s ← insert_seq 4 (BucketNode_init 1)
         [(py_str "a", 0); (py_str "b", 0); (py_str "a", 1)];
   Ok (find s (py_str "a"), find s (py_str "b"), find s (py_str "c")))
  = Ok (Some 0, Some 0, None).
Proof. vm_compute. reflexivity. Qed.

(** X8.  One [insert] on any chain whose head has positive capacity, full
    or not, well shaped or not: the new entry is added among the old ones,
    which keep their order; the inserted key is found afterwards (with
    the new page id if it was not found before); and the lookup of every
    other key is unchanged. *)
Theorem insert_then_find (fuel : nat) (self : BucketNode) (key : str) (pid : Z) :
  0 < capacity self →
  (length (chain_nodes self) < fuel)%nat →
  ∃ (self' : BucketNode) (went_overflow : bool),
    insert fuel self key pid = Ok (self', went_overflow)
    ∧ (∃ l1 l2, chain_items self = l1 ++ l2
                ∧ chain_items self' = l1 ++ (key, pid) :: l2)
    ∧ is_Some (find self' key)
    ∧ (find self key = None → find self' key = Some pid)
    ∧ (∀ key', key' ≠ key → find self' key' = find self key').
Proof.
  intros Hcap Hfuel. unfold insert.
  destruct (insert_loop_Ok self fuel (capacity self) true key pid Hcap Hfuel)
    as (self' & Hrun & Hnodes & _).
  destruct (place_items_split (capacity self) (key, pid) (chain_nodes self))
    as (l1 & l2 & Hold & Hnew).
  rewrite <- Hnodes in Hnew. fold (chain_items self) in Hold.
  fold (chain_items self') in Hnew.
  eexists _, _. split; [done|]. split; [by exists l1, l2|].
  rewrite !find_chain_items, Hnew, Hold.
  rewrite !find_items_app. cbn [find_items]. rewrite decide_True by done.
  split; [|split].
  - by destruct (find_items l1 key).
  - by destruct (find_items l1 key).
  - intros key' Hne. rewrite !find_chain_items, Hnew, Hold, !find_items_app.
    cbn [find_items]. by rewrite decide_False.
Qed.

Lemma insert_then_find_witness :
  let self := {| capacity := 2; items := [(py_str "a", 0)];
                 next := Some {| capacity := 2; items := [(py_str "b", 5)];
                                 next := None |} |} in
  ∃ (self' : BucketNode) (went_overflow : bool),
    insert 3 self (py_str "b") 9 = Ok (self', went_overflow)
    ∧ (∃ l1 l2, chain_items self = l1 ++ l2
                ∧ chain_items self' = l1 ++ (py_str "b", 9) :: l2)
    ∧ is_Some (find self' (py_str "b"))
    ∧ (find self (py_str "b") = None → find self' (py_str "b") = Some 9)
    ∧ (∀ key', key' ≠ py_str "b" → find self' key' = find self key').
Proof.
  apply (insert_then_find 3
           {| capacity := 2; items := [(py_str "a", 0)];
              next := Some {| capacity := 2; items := [(py_str "b", 5)];
                              next := None |} |}
           (py_str "b") 9).
  - reflexivity.
  - cbn. lia.
Defined.

(** On a chain that is not full but for its last node (which no sequence
    of insertions into a fresh bucket produces), the new entry can come
    before an older entry with the same key and hide it. *)
Example insert_before_older_entry :
  let self := {| capacity := 2; items := [(py_str "a", 0)];
                 next := Some {| capacity := 2; items := [(py_str "b", 5)];
                                 next := None |} |} in
  find self (py_str "b") = Some 5
  ∧ (r ← insert 3 self (py_str "b") 9; Ok (find r.1 (py_str "b"), r.2))
    = Ok (Some 9, false).
Proof. split; vm_compute; reflexivity. Qed.

(** X9.  A bucket chain in which no node has a positive capacity, a fresh
    [BucketNode(0)] for one, never accepts an entry: [insert] allocates
    overflow node after overflow node and does not return, whatever
    number of iterations it is given. *)
Theorem insert_nonpositive_capacity_diverges (fuel : nat) (self : BucketNode)
    (key : str) (pid : Z) :
  (∀ c its, (c, its) ∈ chain_nodes self → c ≤ 0) →
  insert fuel self key pid = OutOfFuel.
Proof.
  intros Hall. unfold insert. apply insert_loop_nonpos; [|done].
  apply (Hall _ (items self)). rewrite chain_nodes_unfold. left.
Qed.

Lemma insert_nonpositive_capacity_diverges_witness :
  insert 1000 (BucketNode_init 0) (py_str "a") 0 = OutOfFuel.
Proof.
  apply (insert_nonpositive_capacity_diverges 1000 (BucketNode_init 0) (py_str "a") 0).
  intros c its Hin. cbn in Hin. apply list_elem_of_singleton in Hin.
  injection Hin as -> _. lia.
Defined.

End ChainLookup.

(** ** Hash function: composition and edge cases *)

Section HashMore.

Lemma spec_hash_acc_snoc (key : str) (ch : char) :
  spec_hash_acc (key ++ [ch]) = (spec_hash_acc key * 31 + ord ch) mod 2 ^ 32.
Proof. unfold spec_hash_acc. by rewrite fold_left_app. Qed.

Lemma spec_hash_acc_app (k1 k2 : str) :
  spec_hash_acc (k1 ++ k2) =
    (spec_hash_acc k1 * 31 ^ len k2 + spec_hash_acc k2) mod 2 ^ 32.
Proof.
  induction k2 as [|ch k2 IH] using rev_ind.
  - rewrite app_nil_r. cbn. rewrite Z.mul_1_r, Z.add_0_r.
    symmetry. apply Z.mod_small, spec_hash_acc_range.
  - rewrite app_assoc, !spec_hash_acc_snoc, IH.
    unfold len. rewrite length_app. cbn [length].
    replace (Z.of_nat (length k2 + 1)) with (Z.of_nat (length k2) + 1) by lia.
    rewrite Z.pow_add_r by lia. rewrite Z.pow_1_r.
    rewrite Z.add_mod_idemp_r by done.
    rewrite <- (Z.add_mod_idemp_l (_ * 31)) by done.
    rewrite Z.mul_mod_idemp_l by done.
    rewrite Z.add_mod_idemp_l by done.
    f_equal. ring.
Qed.

(** X10.  The hash accumulator of a concatenation is determined by the
    accumulators of the two parts and the length of the second:
    acc(k1 ++ k2) = (acc(k1) * 31^len(k2) + acc(k2)) mod 2^32.  Keys with
    the same accumulator therefore keep colliding, for every bucket
    count, when the same suffix is appended to both. *)
Theorem hash_acc_app (k1 k2 : str) :
  hash_acc (k1 ++ k2) = (hash_acc k1 * 31 ^ len k2 + hash_acc k2) mod 2 ^ 32
  ∧ ∀ k1' nb0, hash_acc k1' = hash_acc k1 →
      hash_fn (k1' ++ k2) nb0 = hash_fn (k1 ++ k2) nb0.
Proof.
  rewrite !hash_acc_spec. split; [apply spec_hash_acc_app|].
  intros k1' nb0 Heq. unfold hash_fn. rewrite !hash_acc_spec in *.
  by rewrite !spec_hash_acc_app, Heq.
Qed.

Example hash_acc_app_example :
  hash_acc (py_str "grape" ++ py_str "fruit")
  = (hash_acc (py_str "grape") * 31 ^ 5 + hash_acc (py_str "fruit")) mod 2 ^ 32.
Proof. vm_compute. reflexivity. Qed.

(** X11.  [hash_fn] raises exactly when the bucket count is 0
    (ZeroDivisionError, after the whole key was read); for a negative
    bucket count it returns a value in (bucket_count, 0], and for a
    positive one a value in [0, bucket_count). *)
Theorem hash_fn_edge (key : str) (bucket_count : Z) :
  (bucket_count = 0 → hash_fn key bucket_count = Raise ZeroDivisionError)
  ∧ (bucket_count ≠ 0 →
     ∃ r, hash_fn key bucket_count = Ok r
          ∧ (0 < bucket_count → 0 ≤ r ∧ r < bucket_count)
          ∧ (bucket_count < 0 → bucket_count < r ∧ r ≤ 0)).
Proof.
  unfold hash_fn, py_mod. split.
  - by intros ->.
  - intros Hne. destruct (Z.eqb_spec bucket_count 0) as [?|_]; [done|].
    eexists. split; [done|]. split; intros Hsign.
    + by apply Z.mod_pos_bound.
    + by apply Z.mod_neg_bound.
Qed.

End HashMore.

(** ** Hash index: lookup against scan, rebuilds *)

Section IndexMore.

Lemma table_scan_loop_find_items (pages : list Page) (key : str) :
  ∀ cost, (table_scan_loop pages key cost).1 = find_items (entries pages) key.
Proof.
  unfold entries.
  induction pages as [|p pages IH]; intros cost; cbn [table_scan_loop]; [done|].
  cbn [map concat]. rewrite find_items_app, find_items_page_entries.
  destruct (decide (key ∈ records p)); [done|]. apply IH.
Qed.

(** After a completed [build] the index has at least one bucket, and
    lookups see the entries in insertion order. *)
Lemma build_Ok_find_page (fuel : nat) (self idx : HashIndex) (pages : list Page)
    (key : str) :
  build fuel self pages = Ok idx →
  find_page idx key = Ok (find_items (entries pages) key).
Proof.
  intros Hrun.
  destruct (Z.lt_trichotomy (fr self) 0) as [Hneg|[Hzero|Hpos]].
  - destruct (decide (total_records pages = 0)) as [Hnr|Hnr].
    + rewrite build_fr_neg_empty in Hrun by done. injection Hrun as <-.
      rewrite entries_nil by done. unfold find_page. cbn.
      unfold hash_fn, py_mod. cbn. by rewrite Z.mod_1_r.
    + by destruct (build_fr_neg_nonempty fuel self pages Hneg Hnr idx).
  - by rewrite build_fr_zero in Hrun.
  - set (fuel' := (fuel `max` S (Z.to_nat (total_records pages)))%nat).
    apply (build_fuel_mono fuel fuel') in Hrun; [|lia].
    destruct (build_Ok fuel' self pages Hpos) as (idx' & Hrun' & HNB & _ & Hinv);
      [lia|].
    rewrite Hrun in Hrun'. injection Hrun' as <-.
    by apply (find_page_built (fr self)).
Qed.

(** X12.  Whatever the bucket-fill capacity and the page list, when
    [build] completes [find_page] raises nothing and returns, for every
    key, the page id that [table_scan] returns on the same pages (or
    not-found when the scan finds nothing). *)
Theorem find_page_agrees_with_table_scan (fuel : nat) (self idx : HashIndex)
    (pages : list Page) (key : str) :
  build fuel self pages = Ok idx →
  find_page idx key = Ok (table_scan pages key).1.
Proof.
  intros Hrun. rewrite (build_Ok_find_page fuel self idx pages key Hrun).
  unfold table_scan. by rewrite table_scan_loop_find_items.
Qed.

Lemma find_page_agrees_with_table_scan_witness :
  ∃ idx,
    build 5 {| fr := 2; nb := 0; buckets := [];
               inserts := 0; collision_inserts := 0; overflow_inserts := 0 |}
      [mkPage 10 [py_str "a"; py_str "b"]; mkPage 11 [py_str "b"; py_str "c"]]
    = Ok idx
    ∧ find_page idx (py_str "b") =
        Ok (table_scan [mkPage 10 [py_str "a"; py_str "b"];
                        mkPage 11 [py_str "b"; py_str "c"]] (py_str "b")).1.
Proof.
  eexists. split; [vm_compute; reflexivity|].
  apply (find_page_agrees_with_table_scan 5
           {| fr := 2; nb := 0; buckets := [];
              inserts := 0; collision_inserts := 0; overflow_inserts := 0 |}
           _ [mkPage 10 [py_str "a"; py_str "b"]; mkPage 11 [py_str "b"; py_str "c"]]
           (py_str "b")).
  vm_compute. reflexivity.
Defined.

Lemma build_only_fr (fuel : nat) (s1 s2 : HashIndex) (pages : list Page) :
  fr s1 = fr s2 → build fuel s1 pages = build fuel s2 pages.
Proof. intros Hfr. unfold build, build_init. by rewrite Hfr. Qed.

(** X13.  [build] keeps nothing of an earlier build but the bucket-fill
    capacity: building on an index that was already built, over whatever
    pages, gives the very index that building on the original one gives
    (buckets, NB and counters included). *)
Theorem build_rebuild (fuel fuel' : nat) (self idx : HashIndex)
    (pages pages' : list Page) :
  build fuel self pages = Ok idx →
  fr idx = fr self
  ∧ build fuel' idx pages' = build fuel' self pages'.
Proof.
  intros Hrun.
  assert (fr idx = fr self) as Hfr.
  { refine (build_preserves (λ s, fr s = fr self) fuel self idx pages _ _ Hrun).
    - by intros s0 (-> & _)%build_init_inv.
    - intros pid s key s1 Hs (-> & _)%build_record_Ok. done. }
  split; [done|]. by apply build_only_fr.
Qed.

Lemma build_rebuild_witness :
  ∃ idx,
    build 3 {| fr := 1; nb := 0; buckets := [];
               inserts := 0; collision_inserts := 0; overflow_inserts := 0 |}
      [mkPage 0 [py_str "a"; py_str "d"]] = Ok idx
    ∧ fr idx = 1
    ∧ build 3 idx [mkPage 0 [py_str "x"]] =
        build 3 {| fr := 1; nb := 0; buckets := [];
                   inserts := 0; collision_inserts := 0; overflow_inserts := 0 |}
          [mkPage 0 [py_str "x"]].
Proof.
  eexists. split; [vm_compute; reflexivity|].
  apply (build_rebuild 3 3
           {| fr := 1; nb := 0; buckets := [];
              inserts := 0; collision_inserts := 0; overflow_inserts := 0 |}
           _ [mkPage 0 [py_str "a"; py_str "d"]] [mkPage 0 [py_str "x"]]).
  vm_compute. reflexivity.
Defined.

End IndexMore.

(** ** Hash index: what the buckets hold and what the counters count *)

Section IndexContents.

Lemma sum_list_with_insert {A : Type} (f : A → nat) (l : list A) (i : nat) (x y : A) :
  l !! i = Some x →
  (sum_list_with f (<[i := y]> l) + f x = sum_list_with f l + f y)%nat.
Proof.
  revert i. induction l as [|a l IH]; intros i Hi; [done|].
  destruct i as [|i]; simpl in *.
  - injection Hi as ->. lia.
  - specialize (IH i Hi). lia.
Qed.

Lemma concat_insert_snoc {A B : Type} (f : A → list B) (l : list A) (i : nat)
    (x y : A) (e : B) :
  l !! i = Some x → f y = f x ++ [e] →
  concat (map f (<[i := y]> l)) ≡ₚ concat (map f l) ++ [e].
Proof.
  revert i. induction l as [|a l IH]; intros i Hi Hy; [done|].
  destruct i as [|i]; cbn in *.
  - injection Hi as ->. rewrite Hy, <- !app_assoc.
    apply Permutation_app_head. apply Permutation_app_comm.
  - rewrite (IH i Hi Hy). by rewrite app_assoc.
Qed.

Lemma py_getitem_pos {A : Type} (l : list A) (b : Z) (pos : nat) (x : A) :
  0 ≤ b → py_getitem l b = Ok (pos, x) → pos = Z.to_nat b.
Proof.
  intros Hb. unfold py_getitem, py_index. intros H.
  inv_bind H as pos' Hpos.
  destruct (l !! pos') eqn:Hl; [|done]. injection H as <- <-.
  destruct (Z.leb_spec 0 b); [|lia].
  destruct (Z.ltb_spec b (Z.of_nat (length l))); cbn in Hpos.
  - by injection Hpos as <-.
  - destruct (Z.leb_spec (- Z.of_nat (length l)) b);
      destruct (Z.ltb_spec b 0); cbn in Hpos; try done; lia.
Qed.

Lemma place_head (cap0 c : Z) (its : list entry) (rest : list (Z * list entry))
    (e : entry) :
  head (place cap0 ((c, its) :: rest) e) =
    Some (c, if len its <? c then its ++ [e] else its).
Proof. cbn. by destruct (len its <? c). Qed.

Lemma chain_items_head (node : BucketNode) :
  ∃ rest, chain_items node = items node ++ rest.
Proof.
  unfold chain_items. rewrite chain_nodes_unfold. cbn. eauto.
Qed.

Lemma fresh_buckets_content (cap : Z) (l : list Z) :
  concat (map chain_items (map (λ _, BucketNode_init cap) l)) = []
  ∧ sum_list_with in_use (map (λ _, BucketNode_init cap) l) = 0%nat
  ∧ sum_list_with overflow_entries (map (λ _, BucketNode_init cap) l) = 0%nat.
Proof. induction l as [|x l (H1 & H2 & H3)]; cbn; [done|]. by rewrite H1, H2, H3. Qed.

Variables (FR NB : Z) (fuel : nat).
Hypothesis FR_pos : 0 < FR.
Hypothesis NB_pos : 0 < NB.

Lemma build_entry_content (done : list entry) (s : HashIndex) (e : entry) :
  (S (length done) < fuel)%nat →
  build_inv FR NB done s →
  build_content NB done s →
  ∃ s',
    build_entry fuel s e = Ok s'
    ∧ build_inv FR NB (done ++ [e]) s'
    ∧ build_content NB (done ++ [e]) s'.
Proof.
  intros Hfuel Hinv [Hplaced Hperm Hord Hheads Hcol Hov].
  destruct (build_entry_step FR NB fuel FR_pos NB_pos done s e Hfuel Hinv)
    as (s' & Hrun & Hinv' & _).
  exists s'. split; [done|]. split; [done|].
  destruct e as [k pid]. unfold build_entry, build_record in Hrun.
  cbn [fst snd] in Hrun.
  inv_bind Hrun as b Hhash. inv_bind Hrun as [pos primary] Hget.
  inv_bind Hrun as [primary' went] Hins. injection Hrun as <-.
  rewrite (inv_nb _ _ _ _ Hinv) in Hhash. unfold hash_fn, py_mod in Hhash.
  destruct (Z.eqb_spec NB 0) as [?|_]; [lia|]. injection Hhash as <-.
  pose proof (Z.mod_pos_bound (hash_acc k) NB NB_pos) as Hb.
  apply py_getitem_pos in Hget as Hpos; [|lia].
  apply py_getitem_Ok in Hget as Hlook. clear Hget.
  destruct (inv_chain _ _ _ _ Hinv _ _ Hlook) as [Hshape Hnodes].
  destruct (insert_full_but_last FR FR_pos fuel primary k pid Hshape)
    as (p2 & Hins2 & Hplace); [lia|].
  rewrite Hins in Hins2. injection Hins2 as <- ->.
  assert (chain_items primary' = chain_items primary ++ [(k, pid)]) as Hitems.
  { unfold chain_items. by rewrite Hplace, (place_items FR). }
  assert (items primary' =
            if len (items primary) <? FR
            then items primary ++ [(k, pid)] else items primary) as Hhead.
  { pose proof (place_head FR (capacity primary) (items primary)
                  (match next primary with None => [] | Some n => chain_nodes n end)
                  (k, pid)) as Hph.
    rewrite <- chain_nodes_unfold, <- Hplace, chain_nodes_unfold in Hph.
    cbn in Hph. injection Hph as _ Hph. rewrite Hph.
    rewrite chain_nodes_unfold in Hshape. by destruct Hshape as (-> & _). }
  destruct (chain_items_head primary) as (tl & Htl).
  split; cbn [buckets inserts collision_inserts overflow_inserts].
  - intros b' node k' pid' Hb' Hin.
    destruct (decide (b' = pos)) as [->|Hne].
    + rewrite list_lookup_insert_eq in Hb' by (by eapply lookup_lt_Some).
      injection Hb' as <-. rewrite Hitems in Hin.
      apply elem_of_app in Hin as [Hold|Hnew].
      * by apply (Hplaced _ _ _ _ Hlook Hold).
      * apply list_elem_of_singleton in Hnew. injection Hnew as -> _. lia.
    + rewrite list_lookup_insert_ne in Hb' by done.
      by apply (Hplaced _ _ _ _ Hb' Hin).
  - rewrite (concat_insert_snoc chain_items _ _ primary primary' (k, pid)) by done.
    by rewrite Hperm.
  - intros b' node Hb'. rewrite filter_app.
    destruct (decide (b' = pos)) as [->|Hne].
    + rewrite list_lookup_insert_eq in Hb' by (by eapply lookup_lt_Some).
      injection Hb' as <-. rewrite Hitems, (Hord _ _ Hlook).
      rewrite (filter_cons_True _ (k, pid)) by (cbn [fst]; lia). done.
    + rewrite list_lookup_insert_ne in Hb' by done.
      rewrite (Hord _ _ Hb').
      rewrite (filter_cons_False _ (k, pid)) by (cbn [fst]; lia).
      by rewrite app_nil_r.
  - intros b' node Hb' Hempty.
    destruct (decide (b' = pos)) as [->|Hne].
    + rewrite list_lookup_insert_eq in Hb' by (by eapply lookup_lt_Some).
      injection Hb' as <-. rewrite Hhead in Hempty.
      destruct (Z.ltb_spec (len (items primary)) FR) as [Hroom|Hfull].
      * by destruct (items primary).
      * rewrite Hempty in Hfull. unfold len in Hfull. cbn in Hfull. lia.
    + rewrite list_lookup_insert_ne in Hb' by done. by apply (Hheads b').
  - pose proof (sum_list_with_insert in_use _ _ _ primary' Hlook) as Hsum.
    assert (in_use primary' = 1%nat) as Hused.
    { unfold in_use. rewrite Hhead.
      destruct (Z.ltb_spec (len (items primary)) FR) as [Hroom|Hfull].
      - by destruct (items primary).
      - destruct (items primary); [|done]. unfold len in Hfull. cbn in Hfull. lia. }
    assert (in_use primary = if 0 <? len (items primary) then 1%nat else 0%nat)
      as Hwas.
    { unfold in_use, len. by destruct (items primary). }
    rewrite Hused, Hwas in Hsum.
    destruct (0 <? len (items primary)); lia.
  - pose proof (sum_list_with_insert overflow_entries _ _ _ primary' Hlook) as Hsum.
    assert (overflow_entries primary' =
              (overflow_entries primary
               + if (len (items primary) <? FR)%Z then 0 else 1)%nat) as Hgrow.
    { unfold overflow_entries. rewrite Hitems, Hhead, Htl.
      destruct (len (items primary) <? FR);
        rewrite !length_app; cbn [length]; lia. }
    rewrite Hgrow in Hsum.
    destruct (len (items primary) <? FR); cbn [negb]; lia.
Qed.

Lemma build_entries_content (es : list entry) (s0 : HashIndex) :
  (length es < fuel)%nat →
  build_inv FR NB [] s0 →
  build_content NB [] s0 →
  ∃ s',
    for_each (build_entry fuel) es s0 = Ok s'
    ∧ build_inv FR NB es s' ∧ build_content NB es s'.
Proof.
  intros Hfuel Hinv0 Hcontent0.
  apply (for_each_invariant (λ done s, build_inv FR NB done s ∧ build_content NB done s));
    [done|].
  intros done e rest s Hsplit [Hinv Hcontent].
  destruct (build_entry_content done s e) as (s' & Hrun & Hinv' & Hcontent');
    [|done|done|by exists s'].
  rewrite Hsplit, length_app in Hfuel. cbn [length] in Hfuel. lia.
Qed.

End IndexContents.

Section IndexContentsAfterBuild.

Lemma build_init_content (NB : Z) (self s0 : HashIndex) (pages : list Page) :
  build_init self pages = Ok s0 → build_content NB [] s0.
Proof.
  unfold build_init. intros H. inv_bind H as c Hc. injection H as <-.
  destruct (fresh_buckets_content (fr self) (py_range (c + 1))) as (Hcat & Huse & Hov).
  split; cbn [buckets inserts collision_inserts overflow_inserts].
  - by intros b node k pid ->%fresh_buckets_lookup Hin%elem_of_nil.
  - by rewrite Hcat.
  - by intros b node ->%fresh_buckets_lookup.
  - by intros b node ->%fresh_buckets_lookup _.
  - by rewrite Huse.
  - by rewrite Hov.
Qed.

Lemma build_Ok_content (fuel : nat) (self : HashIndex) (pages : list Page) :
  0 < fr self →
  total_records pages < Z.of_nat fuel →
  ∃ idx,
    build fuel self pages = Ok idx
    ∧ 0 < nb idx
    ∧ build_inv (fr self) (nb idx) (entries pages) idx
    ∧ build_content (nb idx) (entries pages) idx.
Proof.
  intros HFR Hfuel. unfold build.
  destruct (build_init_Ok self pages HFR) as (s0 & Hinit & HNB & _ & Hinv0).
  rewrite Hinit. cbn. rewrite build_pages_entries.
  destruct (build_entries_content (fr self) (nb s0) fuel HFR HNB (entries pages) s0)
    as (idx & Hrun & Hinv & Hcontent);
    [|done|by apply (build_init_content _ self s0 pages)|].
  { rewrite total_records_entries in Hfuel. unfold len in Hfuel. lia. }
  exists idx. by rewrite (inv_nb _ _ _ _ Hinv).
Qed.

Lemma in_use_filter (l : list BucketNode) :
  sum_list_with in_use l = length (filter (λ node, items node ≠ []) l).
Proof.
  induction l as [|node l IH]; [done|]. cbn [sum_list_with].
  unfold in_use at 1. destruct (items node) eqn:Hits.
  - rewrite filter_cons_False by (by rewrite Hits; intros ?). by rewrite IH.
  - rewrite filter_cons_True by (by rewrite Hits). cbn. by rewrite IH.
Qed.

Lemma concat_map_not_nil {A B : Type} (f : A → list B) (l : list A) :
  concat (map f l) ≠ [] → ∃ x, x ∈ l ∧ f x ≠ [].
Proof.
  induction l as [|a l IH]; [done|]. cbn. intros Hne.
  destruct (f a) as [|b bs] eqn:Hfa.
  - destruct (IH Hne) as (x & Hx & Hfx). exists x. split; [by right|done].
  - exists a. split; [left|by rewrite Hfa].
Qed.

(** X14.  After [build] with FR > 0 the buckets hold exactly the entries
    of the pages, each once (as a multiset: keys repeated in the pages are
    repeated in the index); every entry sits in the bucket that its key
    hashes to; and every bucket chain has nodes of capacity FR that are
    all full, except possibly the last of each chain. *)
Theorem build_contents (fuel : nat) (self : HashIndex) (pages : list Page) :
  0 < fr self →
  total_records pages < Z.of_nat fuel →
  ∃ idx,
    build fuel self pages = Ok idx
    ∧ concat (map chain_items (buckets idx)) ≡ₚ entries pages
    ∧ (∀ (b : nat) node k pid,
         buckets idx !! b = Some node → (k, pid) ∈ chain_items node →
         hash_fn k (nb idx) = Ok (Z.of_nat b))
    ∧ (∀ (b : nat) node (i : nat) c its,
         buckets idx !! b = Some node → chain_nodes node !! i = Some (c, its) →
         c = fr self ∧ len its ≤ c
         ∧ ((S i < length (chain_nodes node))%nat → len its = c)).
Proof.
  intros HFR Hfuel.
  destruct (build_Ok_content fuel self pages HFR Hfuel)
    as (idx & Hrun & HNB & Hinv & Hcontent).
  exists idx. split; [done|]. split; [apply (content_perm _ _ _ Hcontent)|].
  split.
  - intros b node k pid Hb Hin. unfold hash_fn, py_mod.
    destruct (Z.eqb_spec (nb idx) 0) as [?|_]; [lia|].
    by rewrite (content_placed _ _ _ Hcontent b node k pid Hb Hin).
  - intros b node i c its Hb Hi.
    destruct (inv_chain _ _ _ _ Hinv b node Hb) as [Hshape _].
    destruct (full_but_last_lookup (fr self) _ Hshape i c its Hi) as (-> & ? & ?).
    done.
Qed.

Lemma build_contents_witness :
  let self := {| fr := 1; nb := 0; buckets := [];
                 inserts := 0; collision_inserts := 0; overflow_inserts := 0 |} in
  let pages := [mkPage 0 [py_str "a"; py_str "d"]; mkPage 1 [py_str "a"]] in
  ∃ idx,
    build 4 self pages = Ok idx
    ∧ concat (map chain_items (buckets idx)) ≡ₚ entries pages
    ∧ (∀ (b : nat) node k pid,
         buckets idx !! b = Some node → (k, pid) ∈ chain_items node →
         hash_fn k (nb idx) = Ok (Z.of_nat b))
    ∧ (∀ (b : nat) node (i : nat) c its,
         buckets idx !! b = Some node → chain_nodes node !! i = Some (c, its) →
         c = fr self ∧ len its ≤ c
         ∧ ((S i < length (chain_nodes node))%nat → len its = c)).
Proof.
  apply (build_contents 4
           {| fr := 1; nb := 0; buckets := [];
              inserts := 0; collision_inserts := 0; overflow_inserts := 0 |}
           [mkPage 0 [py_str "a"; py_str "d"]; mkPage 1 [py_str "a"]]).
  - reflexivity.
  - vm_compute. reflexivity.
Defined.

(** X18.  After [build] with FR > 0, bucket [b] holds, in the order of
    their insertion, exactly the entries of the pages whose key hashes to
    [b]; and node [i] of its chain holds the entries
    [i * FR, (i + 1) * FR) of that list. *)
Theorem build_bucket_entries (fuel : nat) (self : HashIndex) (pages : list Page) :
  0 < fr self →
  total_records pages < Z.of_nat fuel →
  ∃ idx,
    build fuel self pages = Ok idx
    ∧ ∀ (b : nat) node,
        buckets idx !! b = Some node →
        chain_items node =
          filter (λ e, hash_acc e.1 mod nb idx = Z.of_nat b) (entries pages)
        ∧ ∀ (i : nat) c its,
            chain_nodes node !! i = Some (c, its) →
            its = take (Z.to_nat (fr self))
                    (drop (i * Z.to_nat (fr self)) (chain_items node)).
Proof.
  intros HFR Hfuel.
  destruct (build_Ok_content fuel self pages HFR Hfuel)
    as (idx & Hrun & HNB & Hinv & Hcontent).
  exists idx. split; [done|]. intros b node Hb.
  split; [apply (content_ordered _ _ _ Hcontent b node Hb)|].
  intros i c its Hi.
  destruct (inv_chain _ _ _ _ Hinv b node Hb) as [Hshape _].
  by apply (full_but_last_slice (fr self) HFR (chain_nodes node) Hshape i c).
Qed.

Lemma build_bucket_entries_witness :
  let self := {| fr := 1; nb := 0; buckets := [];
                 inserts := 0; collision_inserts := 0; overflow_inserts := 0 |} in
  let pages := [mkPage 0 [py_str "a"; py_str "d"]; mkPage 1 [py_str "a"]] in
  ∃ idx,
    build 4 self pages = Ok idx
    ∧ ∀ (b : nat) node,
        buckets idx !! b = Some node →
        chain_items node =
          filter (λ e, hash_acc e.1 mod nb idx = Z.of_nat b) (entries pages)
        ∧ ∀ (i : nat) c its,
            chain_nodes node !! i = Some (c, its) →
            its = take (Z.to_nat (fr self))
                    (drop (i * Z.to_nat (fr self)) (chain_items node)).
Proof.
  apply (build_bucket_entries 4
           {| fr := 1; nb := 0; buckets := [];
              inserts := 0; collision_inserts := 0; overflow_inserts := 0 |}
           [mkPage 0 [py_str "a"; py_str "d"]; mkPage 1 [py_str "a"]]).
  - reflexivity.
  - vm_compute. reflexivity.
Defined.

(** X15.  What the counters of [build] count (FR > 0): the insertions
    that are not collisions are as many as the buckets in use, one first
    insertion per bucket; the overflow counter is the number of entries
    stored outside the head nodes; and at least one insertion is not a
    collision as soon as there is a record. *)
Theorem build_counters_meaning (fuel : nat) (self : HashIndex) (pages : list Page) :
  0 < fr self →
  total_records pages < Z.of_nat fuel →
  ∃ idx,
    build fuel self pages = Ok idx
    ∧ inserts idx - collision_inserts idx =
        len (filter (λ node, items node ≠ []) (buckets idx))
    ∧ overflow_inserts idx =
        Z.of_nat (sum_list_with
                    (λ node, length (chain_items node) - length (items node))%nat
                    (buckets idx))
    ∧ (0 < total_records pages → collision_inserts idx < inserts idx).
Proof.
  intros HFR Hfuel.
  destruct (build_Ok_content fuel self pages HFR Hfuel)
    as (idx & Hrun & HNB & Hinv & Hcontent).
  exists idx. split; [done|].
  pose proof (content_collisions _ _ _ Hcontent) as Hcol.
  split; [by rewrite Hcol, in_use_filter|].
  split; [apply (content_overflows _ _ _ Hcontent)|].
  intros Hnr. rewrite total_records_entries in Hnr.
  destruct (concat_map_not_nil chain_items (buckets idx)) as (node & Hnode & Hne).
  { intros Hnil. pose proof (content_perm _ _ _ Hcontent) as Hperm.
    rewrite Hnil in Hperm. apply Permutation_length in Hperm.
    unfold len in Hnr. cbn in Hperm. lia. }
  pose proof (sum_list_with_in node in_use _ Hnode) as Hsum.
  assert (in_use node = 1%nat) as Huse.
  { apply list_elem_of_lookup in Hnode as [b Hb].
    pose proof (content_heads _ _ _ Hcontent b node Hb) as Hhead.
    unfold in_use. destruct (items node); [by destruct Hne; apply Hhead|done]. }
  lia.
Qed.

Lemma build_counters_meaning_witness :
  let self := {| fr := 1; nb := 0; buckets := [];
                 inserts := 0; collision_inserts := 0; overflow_inserts := 0 |} in
  let pages := [mkPage 0 [py_str "a"; py_str "d"]; mkPage 1 [py_str "a"]] in
  ∃ idx,
    build 4 self pages = Ok idx
    ∧ inserts idx - collision_inserts idx =
        len (filter (λ node, items node ≠ []) (buckets idx))
    ∧ overflow_inserts idx =
        Z.of_nat (sum_list_with
                    (λ node, length (chain_items node) - length (items node))%nat
                    (buckets idx))
    ∧ (0 < total_records pages → collision_inserts idx < inserts idx).
Proof.
  apply (build_counters_meaning 4
           {| fr := 1; nb := 0; buckets := [];
              inserts := 0; collision_inserts := 0; overflow_inserts := 0 |}
           [mkPage 0 [py_str "a"; py_str "d"]; mkPage 1 [py_str "a"]]).
  - reflexivity.
  - vm_compute. reflexivity.
Defined.

Example build_three_entries_counters :
  (idx ← build 4 {| fr := 1; nb := 0; buckets := [];
                    inserts := 0; collision_inserts := 0; overflow_inserts := 0 |}
           [mkPage 0 [py_str "a"; py_str "d"]; mkPage 1 [py_str "a"]];
   Ok (nb idx, inserts idx, collision_inserts idx, overflow_inserts idx,
       map chain_items (buckets idx)))
  = Ok (4, 3, 1, 1,
        [[(py_str "d", 0)]; [(py_str "a", 0); (py_str "a", 1)]; []; []]).
Proof. vm_compute. reflexivity. Qed.

End IndexContentsAfterBuild.

(** ** Rates *)

Section Rates.

Lemma rate_le (a b total : Z) :
  a ≤ b → 0 ≤ total →
  ((if total =? 0 then 0 else inject_Z a / inject_Z total * 100)
   <= (if total =? 0 then 0 else inject_Z b / inject_Z total * 100))%Q.
Proof.
  intros Hab Ht. destruct (Z.eqb_spec total 0) as [_|Hne]; [done|].
  destruct total as [|t|t]; try lia.
  unfold Qle, Qdiv, Qmult, Qinv, inject_Z. cbn.
  apply Z.mul_le_mono_nonneg_r; lia.
Qed.

Lemma rate_lt_100 (a total : Z) :
  a < total →0 ≤ a →
  ((if total =? 0 then 0 else inject_Z a / inject_Z total * 100) < 100)%Q.
Proof.
  intros Hab Ha. destruct (Z.eqb_spec total 0) as [_|Hne]; [done|].
  destruct total as [|t|t]; try lia.
  unfold Qlt, Qdiv, Qmult, Qinv, inject_Z. cbn. lia.
Qed.

(** X16.  After [build] with FR > 0 the overflow rate never exceeds the
    collision rate, and the collision rate never reaches 100: the first
    insertion into a bucket is never a collision. *)
Theorem build_rates_order (fuel : nat) (self : HashIndex) (pages : list Page) :
  0 < fr self →
  total_records pages < Z.of_nat fuel →
  ∃ idx,
    build fuel self pages = Ok idx
    ∧ (overflow_rate idx <= collision_rate idx)%Q
    ∧ (collision_rate idx < 100)%Q.
Proof.
  intros HFR Hfuel.
  destruct (build_Ok_content fuel self pages HFR Hfuel)
    as (idx & Hrun & HNB & Hinv & Hcontent).
  exists idx. split; [done|].
  destruct (inv_counters _ _ _ _ Hinv) as (Ho & Hoc & Hci).
  pose proof (content_collisions _ _ _ Hcontent) as Hcol.
  unfold overflow_rate, collision_rate. split.
  - apply rate_le; lia.
  - destruct (Z.eqb_spec (inserts idx) 0) as [_|Hne]; [done|].
    assert (collision_inserts idx < inserts idx) as Hlt.
    { assert (0 < sum_list_with in_use (buckets idx))%nat; [|lia].
      destruct (concat_map_not_nil chain_items (buckets idx))
        as (node & Hnode & Hnil).
      { intros Hnil. pose proof (content_perm _ _ _ Hcontent) as Hperm.
        rewrite Hnil in Hperm. apply Permutation_length in Hperm.
        rewrite (inv_inserts _ _ _ _ Hinv) in Hne. unfold len in Hne.
        cbn in Hperm. lia. }
      pose proof (sum_list_with_in node in_use _ Hnode) as Hsum.
      apply list_elem_of_lookup in Hnode as [b Hb].
      pose proof (content_heads _ _ _ Hcontent b node Hb) as Hhead.
      assert (in_use node = 1%nat) as Huse; [|lia].
      unfold in_use. destruct (items node); [by destruct Hnil; apply Hhead|done]. }
    pose proof (rate_lt_100 (collision_inserts idx) (inserts idx) Hlt ltac:(lia)) as Hr.
    destruct (Z.eqb_spec (inserts idx) 0) as [?|_]; [done|]. exact Hr.
Qed.

Lemma build_rates_order_witness :
  let self := {| fr := 1; nb := 0; buckets := [];
                 inserts := 0; collision_inserts := 0; overflow_inserts := 0 |} in
  let pages := [mkPage 0 [py_str "a"; py_str "d"]; mkPage 1 [py_str "a"]] in
  ∃ idx,
    build 4 self pages = Ok idx
    ∧ (overflow_rate idx <= collision_rate idx)%Q
    ∧ (collision_rate idx < 100)%Q.
Proof.
  apply (build_rates_order 4
           {| fr := 1; nb := 0; buckets := [];
              inserts := 0; collision_inserts := 0; overflow_inserts := 0 |}
           [mkPage 0 [py_str "a"; py_str "d"]; mkPage 1 [py_str "a"]]).
  - reflexivity.
  - vm_compute. reflexivity.
Defined.

End Rates.

(** ** From the word list to a lookup *)

Section Pipeline.

Lemma elem_of_chunk {A : Type} (x : A) (l : list A) (m a : nat) :
  x ∈ take m (drop a l) →
  ∃ t, (t < m)%nat ∧ l !! (a + t)%nat = Some x.
Proof.
  intros [t Ht]%list_elem_of_lookup.
  apply lookup_take_Some in Ht as [Ht Hlt]. rewrite lookup_drop in Ht. eauto.
Qed.

(** X17.  Paging then indexing (page size and FR positive): for a word
    whose first occurrence in the word list is at position [i], both
    [find_page] on the built index and [table_scan] on the pages return
    page [i // page_size], the scan at a cost of [i // page_size + 1]
    pages; for a key that is not in the word list both return not-found,
    the scan after reading every page. *)
Theorem paged_lookup (words : list str) (page_size : Z) (fuel : nat)
    (self : HashIndex) :
  0 < page_size →
  0 < fr self →
  len words < Z.of_nat fuel →
  ∃ pages idx,
    make_pages words page_size = Some pages
    ∧ build fuel self pages = Ok idx
    ∧ ∀ key : str,
        (∀ i : nat,
           words !! i = Some key →
           (∀ j, (j < i)%nat → words !! j ≠ Some key) →
           find_page idx key = Ok (Some (Z.of_nat i / page_size))
           ∧ table_scan pages key =
               (Some (Z.of_nat i / page_size), Z.of_nat i / page_size + 1))
        ∧ (key ∉ words →
           find_page idx key = Ok None
           ∧ table_scan pages key = (None, len pages)).
Proof.
  intros Hps HFR Hfuel.
  rewrite make_pages_chunks by done.
  set (m := Z.to_nat page_size).
  set (n := Z.to_nat ((len words + page_size - 1) / page_size)).
  set (F := λ k : nat, mkPage (Z.of_nat k) (take m (drop (k * m) words))).
  set (pages := map F (seq 0 n)).
  assert (0 < m)%nat as Hm by lia.
  destruct (page_count_bounds (len words) page_size) as (Hq & Hle & _);
    [unfold len; lia|done|].
  assert (length words ≤ n * m)%nat as Hcover by (unfold len in *; nia).
  assert (∀ k p, pages !! k = Some p ↔ p = F k ∧ (k < n)%nat) as Hpage.
  { intros k p. unfold pages. change (map F ?l) with (F <$> l).
    rewrite list_lookup_fmap. split.
    - destruct (seq 0 n !! k) as [k'|] eqn:Hk; [|done].
      apply lookup_seq in Hk as [-> ?]. by intros [= <-].
    - intros [-> Hk]. by rewrite lookup_seq_lt. }
  assert (total_records pages < Z.of_nat fuel) as Hfuel'.
  { rewrite total_records_entries. unfold len. rewrite entries_length.
    unfold pages. rewrite map_map. cbn [records F]. rewrite chunks_concat.
    rewrite take_ge by done. unfold len in Hfuel. lia. }
  destruct (build_Ok fuel self pages HFR Hfuel') as (idx & Hrun & HNB & _ & Hinv).
  exists pages, idx. split; [done|]. split; [done|]. intros key.
  rewrite (find_page_built (fr self) (entries pages) idx key HNB Hinv).
  unfold table_scan. split.
  - intros i Hi Hfirst.
    pose proof (lookup_lt_Some _ _ _ Hi) as HiL.
    pose proof (Nat.div_mod_eq i m) as Hdiv.
    pose proof (Nat.mod_upper_bound i m ltac:(lia)) as Hmod.
    set (j0 := (i / m)%nat) in *.
    assert (Z.of_nat i / page_size = Z.of_nat j0) as ->.
    { subst j0. rewrite Nat2Z.inj_div. f_equal. lia. }
    assert (pages !! j0 = Some (F j0)) as Hj0.
    { apply Hpage. split; [done|]. nia. }
    assert (key ∈ records (F j0)) as Hin.
    { cbn. apply (list_elem_of_lookup_2 _ (i mod m)).
      rewrite lookup_take_lt by done. rewrite lookup_drop.
      by replace (j0 * m + i mod m)%nat with i by lia. }
    assert (∀ j q, (j < j0)%nat → pages !! j = Some q → key ∉ records q) as Hbefore.
    { intros j q Hj [-> _]%Hpage Hkey. cbn in Hkey.
      apply elem_of_chunk in Hkey as (t & Ht & Hlook).
      apply (Hfirst (j * m + t)%nat); [nia|done]. }
    rewrite (find_items_entries_found key pages j0 (F j0) Hj0 Hin Hbefore).
    rewrite (table_scan_loop_found key pages 0 j0 (F j0) Hj0 Hin Hbefore).
    split; [done|]. cbn. f_equal; lia.
  - intros Habs.
    assert (∀ p, p ∈ pages → key ∉ records p) as Hnone.
    { intros p [k [-> _]%Hpage]%list_elem_of_lookup Hkey. cbn in Hkey.
      apply elem_of_chunk in Hkey as (t & _ & Hlook).
      apply Habs. by eapply list_elem_of_lookup_2. }
    rewrite find_items_entries_absent by done.
    by rewrite table_scan_loop_absent.
Qed.

Lemma paged_lookup_witness :
  let words := [py_str "apple"; py_str "banana"; py_str "cherry"; py_str "date";
                py_str "egg"; py_str "fig"; py_str "grape"] in
  let self := {| fr := 2; nb := 0; buckets := [];
                 inserts := 0; collision_inserts := 0; overflow_inserts := 0 |} in
  ∃ pages idx,
    make_pages words 3 = Some pages
    ∧ build 8 self pages = Ok idx
    ∧ ∀ key : str,
        (∀ i : nat,
           words !! i = Some key →
           (∀ j, (j < i)%nat → words !! j ≠ Some key) →
           find_page idx key = Ok (Some (Z.of_nat i / 3))
           ∧ table_scan pages key = (Some (Z.of_nat i / 3), Z.of_nat i / 3 + 1))
        ∧ (key ∉ words →
           find_page idx key = Ok None
           ∧ table_scan pages key = (None, len pages)).
Proof.
  apply (paged_lookup
           [py_str "apple"; py_str "banana"; py_str "cherry"; py_str "date";
            py_str "egg"; py_str "fig"; py_str "grape"] 3 8
           {| fr := 2; nb := 0; buckets := [];
              inserts := 0; collision_inserts := 0; overflow_inserts := 0 |}).
  - reflexivity.
  - reflexivity.
  - vm_compute. reflexivity.
Defined.

Example paged_lookup_fig :
  (pages ← make_pages [py_str "apple"; py_str "banana"; py_str "cherry";
                       py_str "date"; py_str "egg"; py_str "fig"; py_str "grape"] 3;
   match build 8 {| fr := 8; nb := 0; buckets := [];
                    inserts := 0; collision_inserts := 0; overflow_inserts := 0 |}
           pages with
   | Ok idx => Some (find_page idx (py_str "fig"), table_scan pages (py_str "fig"),
                     find_page idx (py_str "kiwi"), table_scan pages (py_str "kiwi"))
   | _ => None
   end)
  = Some (Ok (Some 1), (Some 1, 2), Ok None, (None, 3)).
Proof. vm_compute. reflexivity. Qed.

End Pipeline.
